(** * The multithreaded TCP port scanner of [generate_password.py]

    A shallow embedding of [scan_port] and of the collection loop of
    [main] (the part of the file after the marker
    [# === import socket.py ===]), and the properties the specification
    states about them.

    Conventions of the embedding.
    - The dict built on line 99 is a [gmap string pyval]; an item
      assignment [result[k] = v] is [<[k:=v]>].
    - Library calls whose outcome depends on the network or the operating
      system ([socket.socket], [connect_ex], [getservbyport], [recv],
      [bytes.decode], [repr]) are answered by a [World]: each call either
      returns a value or raises.  This includes [settimeout], which
      rejects a negative, a too large and a NaN timeout.
    - Exceptions raised by these calls are instances of [Exception]; the
      source distinguishes [socket.timeout] from the rest.  [scan_port]
      is only ever run on pool workers, where the interpreter delivers no
      [KeyboardInterrupt].
    - [s.close()] is the release of the descriptor and returns normally.
    - The local variables [result] and [s] live in a [Frame] that
      survives a raise, as Python locals do. *)

From Stdlib Require Import ZArith QArith Lia Ascii.
From stdpp Require Import gmap strings list fin_maps sorting.

Open Scope string_scope.
Open Scope list_scope.
Open Scope Z_scope.

(** ** Python values and exceptions *)

Inductive pyval :=
  | PInt (n : Z)
  | PStr (t : string).

Global Instance pyval_eq_dec : EqDecision pyval.
Proof. solve_decision. Defined.

(** [str(e)] of the two families of exceptions the handlers tell apart. *)
Inductive exn :=
  | SocketTimeout (msg : string)      (* socket.timeout *)
  | PyException (msg : string).       (* any other Exception *)

(** A Python [float]: [--timeout] is parsed with [type=float], which
    also accepts [inf] and [nan]. *)
Inductive pyfloat :=
  | Finite (q : Q)
  | Infinite (negative : bool)
  | NaN.
Coercion Finite : Q >-> pyfloat.
Bind Scope Q_scope with pyfloat.

Inductive outcome (A : Type) :=
  | Returns (a : A)
  | Raises (e : exn).
Arguments Returns {A} a.
Arguments Raises {A} e.

(** ** The frame of one [scan_port] call *)

Inductive sock_state :=
  | Unallocated     (* [s] not bound yet *)
  | Allocated       (* [socket.socket] returned, not closed *)
  | Released.       (* [s.close()] was executed *)

Global Instance sock_state_eq_dec : EqDecision sock_state.
Proof. solve_decision. Defined.

Record Frame := mkFrame {
  result : gmap string pyval;
  sock : sock_state
}.

(** State that survives exceptions, plus a result or a raised exception. *)
Definition M (A : Type) : Type := Frame -> Frame * outcome A.

Global Instance M_ret : MRet M := fun A a fr => (fr, Returns a).
Global Instance M_bind : MBind M := fun A B f m fr =>
  match m fr with
  | (fr', Returns a) => f a fr'
  | (fr', Raises e) => (fr', Raises e)
  end.

Definition raise {A} (e : exn) : M A := fun fr => (fr, Raises e).

(** [try: body except Exception: handler] (every exception of the model
    is an [Exception]). *)
Definition try_except {A} (body : M A) (handler : exn -> M A) : M A :=
  fun fr =>
    match body fr with
    | (fr', Returns a) => (fr', Returns a)
    | (fr', Raises e) => handler e fr'
    end.

Definition call {A} (o : outcome A) : M A := fun fr => (fr, o).

(** [result[k] = v] *)
Definition setitem (k : string) (v : pyval) : M unit :=
  fun fr => (mkFrame (<[k:=v]> (result fr)) (sock fr), Returns tt).

Definition get_result : M (gmap string pyval) :=
  fun fr => (fr, Returns (result fr)).

(** ** The environment of one probe *)

Record World := mkWorld {
  (* socket.socket(socket.AF_INET, socket.SOCK_STREAM) *)
  w_socket : outcome unit;
  (* s.settimeout(t) *)
  w_settimeout : pyfloat -> outcome unit;
  (* s.connect_ex((target_ip, port)) *)
  w_connect_ex : string -> Z -> outcome Z;
  (* socket.getservbyport(port) *)
  w_getservbyport : Z -> outcome string;
  (* s.recv(bufsize) *)
  w_recv : Z -> outcome (list Byte.byte);
  (* banner.decode(errors="replace").strip() *)
  w_decode_strip : list Byte.byte -> outcome string;
  (* repr(banner) *)
  w_repr : list Byte.byte -> string
}.

Definition socket_socket (w : World) : M unit :=
  fun fr =>
    match w_socket w with
    | Returns _ => (mkFrame (result fr) Allocated, Returns tt)
    | Raises e => (fr, Raises e)
    end.

(** [s.settimeout(t)] *)
Definition settimeout (w : World) (t : pyfloat) : M unit :=
  call (w_settimeout w t).

(** [s.close()] *)
Definition close : M unit :=
  fun fr => (mkFrame (result fr) Released, Returns tt).

(** The tuple [(111, 10061)] of line 128. *)
Definition refused_codes : list Z := [111; 10061].

Definition banner_attempt (w : World) : M unit :=
  try_except
    (settimeout w (8 # 10) ;;
     banner ← call (w_recv w 1024);
     if bool_decide (banner ≠ [])
     then try_except
            (t ← call (w_decode_strip w banner);
             setitem "banner" (PStr t))
            (fun _ => setitem "banner"
                        (PStr (String.substring 0 200 (w_repr w banner))))
     else mret tt)
    (fun _ => mret tt).

(** Lines 101-133: the body of the outer [try]. *)
Definition scan_body (w : World) (target_ip : string) (port : Z)
    (timeout : pyfloat) (do_banner : bool) : M unit :=
  socket_socket w ;;
  settimeout w timeout ;;
  err ← call (w_connect_ex w target_ip port);
  (if bool_decide (err = 0)
   then
     setitem "status" (PStr "open") ;;
     try_except
       (svc ← call (w_getservbyport w port);
        setitem "service" (PStr svc))
       (fun _ => setitem "service" (PStr "")) ;;
     (if do_banner then banner_attempt w else mret tt)
   else
     if bool_decide (err ∈ refused_codes)
     then setitem "status" (PStr "closed")
     else setitem "status" (PStr "filtered")) ;;
  close.

(** Lines 134-138: the two outer handlers. *)
Definition scan_handler (e : exn) : M unit :=
  match e with
  | SocketTimeout _ => setitem "status" (PStr "filtered")
  | PyException msg =>
      setitem "status" (PStr "filtered") ;;
      setitem "error" (PStr msg)
  end.

(** Line 99. *)
Definition init_result (port : Z) : gmap string pyval :=
  <["port" := PInt port]>
  (<["status" := PStr "closed"]>
  (<["service" := PStr ""]>
  (<["banner" := PStr ""]>
  (<["error" := PStr ""]> ∅)))).

Definition init_frame (port : Z) : Frame := mkFrame (init_result port) Unallocated.

Definition scan_port_M (w : World) (target_ip : string) (port : Z)
    (timeout : pyfloat) (do_banner : bool) : M (gmap string pyval) :=
  try_except (scan_body w target_ip port timeout do_banner) scan_handler ;;
  get_result.

(** One call of [scan_port]: the frame it leaves behind and what the
    caller receives. *)
Definition scan_port (w : World) (target_ip : string) (port : Z)
    (timeout : pyfloat) (do_banner : bool) : Frame * outcome (gmap string pyval) :=
  scan_port_M w target_ip port timeout do_banner (init_frame port).

(** ** [main]: validation, submission, collection, summary *)

Record Args := mkArgs {
  target : string;
  start : Z;
  end_ : Z;
  timeout : pyfloat;
  workers : Z;
  banner : bool;
  out : string
}.

Record Env := mkEnv {
  (* socket.gethostbyname(target); [None] is socket.gaierror *)
  gethostbyname : string -> option string;
  (* what the probe of each port meets *)
  net : Z -> World
}.

Definition resolve_target (env : Env) (tgt : string) : option string :=
  gethostbyname env tgt.

(** Lines 161-168: [None] is the [sys.exit(1)] of line 166, otherwise
    [list(range(start_port, end_port + 1))]. *)
Definition enumerate_ports (start_arg end_arg : Z) : option (list Z) :=
  let start_port := Z.max 1 start_arg in
  let end_port := Z.min 65535 end_arg in
  if bool_decide (start_port > end_port) then None
  else Some (seqZ start_port (end_port + 1 - start_port)).

(** What the pool and the main thread do while [main] is inside the
    [with] block.  [Finish p]: a worker returns from [scan_port] for port
    [p].  [Yield p]: [as_completed] hands the finished future of port [p]
    to the loop body, which runs lines 184-191. *)
Inductive event :=
  | Finish (p : Z)
  | Yield (p : Z).

(** A run of the pool: the events while [main] is in the loop, whether a
    [KeyboardInterrupt] is then delivered to the main thread, and the
    probes that finish afterwards (line 194 cancels nothing, and leaving
    the [with] block waits for them).  The interrupt arrives while the
    loop waits for the next future, or inside an iteration: [cut] names
    the port of the iteration it cuts between [results.append(res)] (line
    185) and [open_count += 1] (line 187).  An interrupt elsewhere in the
    body leaves [results] and [open_count] as an interrupt before or
    after that iteration does. *)
Record Schedule := mkSchedule {
  before : list event;
  interrupt : bool;
  after : list Z;
  cut : option Z
}.

Record Run := mkRun {
  pending : list Z;                    (* futures not finished yet *)
  done : list Z;                       (* finished, not yet yielded *)
  results : list (gmap string pyval);  (* the list [results] *)
  open_count : nat;
  failure : option string              (* an exception left the loop *)
}.

Definition init_run (ports : list Z) : Run := mkRun ports [] [] 0 None.

Definition remove_port (p : Z) (l : list Z) : list Z :=
  filter (fun q => q ≠ p) l.

(** Lines 184-191 for the future of port [p]; [fut.result()] re-raises
    what [scan_port] raised, and a missing key is a [KeyError]. *)
Definition loop_body (env : Env) (target_ip : string) (a : Args) (p : Z)
    (st : Run) : Run :=
  match (scan_port (net env p) target_ip p (timeout a) (banner a)).2 with
  | Raises (SocketTimeout msg) | Raises (PyException msg) =>
      mkRun (pending st) (remove_port p (done st)) (results st)
            (open_count st) (Some msg)
  | Returns res =>
      let results' := results st ++ [res] in
      match res !! "status" with
      | None =>
          mkRun (pending st) (remove_port p (done st)) results'
                (open_count st) (Some "KeyError: 'status'")
      | Some v =>
          mkRun (pending st) (remove_port p (done st)) results'
                (if bool_decide (v = PStr "open")
                 then S (open_count st) else open_count st)
                None
      end
  end.

Definition step (env : Env) (target_ip : string) (a : Args) (st : Run)
    (e : event) : Run :=
  match e with
  | Finish p =>
      if bool_decide (p ∈ pending st)
      then mkRun (remove_port p (pending st)) (done st ++ [p]) (results st)
                 (open_count st) (failure st)
      else st
  | Yield p =>
      if bool_decide (p ∈ done st ∧ failure st = None)
      then loop_body env target_ip a p st
      else st
  end.

Definition collect (env : Env) (target_ip : string) (a : Args)
    (evs : list event) (st : Run) : Run :=
  foldl (step env target_ip a) st evs.

(** Probes finishing while the executor shuts down. *)
Definition drain (ps : list Z) (l : list Z) : list Z :=
  foldl (fun acc p => remove_port p acc) l ps.

(** [x["port"]] as a sort key: the keys must all be integers. *)
Definition port_key (r : gmap string pyval) : option Z :=
  match r !! "port" with
  | Some (PInt p) => Some p
  | _ => None
  end.

Fixpoint insert_by_key {A} (x : Z * A) (l : list (Z * A)) : list (Z * A) :=
  match l with
  | [] => [x]
  | y :: l' =>
      if bool_decide (x.1 ≤ y.1) then x :: y :: l'
      else y :: insert_by_key x l'
  end.

(** A stable sort on the decorated list; [sorted] is stable, and a stable
    sort has one possible result. *)
Definition stable_sort {A} (l : list (Z * A)) : list (Z * A) :=
  foldr insert_by_key [] l.

(** [sorted(results, key=lambda x: x["port"])]: keys are computed first,
    then the list is sorted on them. *)
Definition sorted_by_port (rs : list (gmap string pyval))
    : option (list (gmap string pyval)) :=
  keys ← mapM port_key rs;
  Some ((stable_sort (zip keys rs)).*2).

Record Summary := mkSummary {
  results_sorted : list (gmap string pyval);  (* handed to the two writers *)
  printed_open_count : nat                    (* line 200 *)
}.

Inductive MainResult :=
  | SysExit (code : Z)           (* lines 159 and 166 *)
  | Crashed (msg : string)       (* an exception leaves [main] *)
  | Waiting                      (* the schedule ends before the run does *)
  | Finished (s : Summary).

(** The loop is over once every future was yielded. *)
Definition loop_ended (st : Run) : bool :=
  bool_decide (pending st = [] ∧ done st = []).

Definition finalize (st : Run) : MainResult :=
  match sorted_by_port (results st) with
  | Some rs => Finished (mkSummary rs (open_count st))
  | None => Crashed "KeyError: 'port'"
  end.

(** Lines 184-185 for the future of port [p], when the interrupt
    arrives before line 187. *)
Definition cut_body (env : Env) (target_ip : string) (a : Args) (p : Z)
    (st : Run) : Run :=
  match (scan_port (net env p) target_ip p (timeout a) (banner a)).2 with
  | Raises (SocketTimeout msg) | Raises (PyException msg) =>
      mkRun (pending st) (remove_port p (done st)) (results st)
            (open_count st) (Some msg)
  | Returns res =>
      mkRun (pending st) (remove_port p (done st)) (results st ++ [res])
            (open_count st) None
  end.

(** The state in which the loop is left: after the events of the
    schedule, and after the cut iteration when the interrupt falls into
    one. *)
Definition exit_state (env : Env) (target_ip : string) (a : Args)
    (ports : list Z) (sch : Schedule) : Run :=
  let st := collect env target_ip a (before sch) (init_run ports) in
  if interrupt sch && negb (loop_ended st) then
    match cut sch with
    | Some p =>
        if bool_decide (p ∈ done st ∧ failure st = None)
        then cut_body env target_ip a p st else st
    | None => st
    end
  else st.

(** Lines 176-204, for the ports of line 168. *)
Definition scan_all (env : Env) (target_ip : string) (a : Args)
    (ports : list Z) (sch : Schedule) : MainResult :=
  (* ThreadPoolExecutor(max_workers=n) raises ValueError unless n > 0 *)
  if bool_decide (workers a ≤ 0)
  then Crashed "ValueError: max_workers must be greater than 0"
  else
    let st := collect env target_ip a (before sch) (init_run ports) in
    match failure st with
    | Some msg => Crashed msg
    | None =>
        if loop_ended st then
          (* a KeyboardInterrupt now is outside the [try] *)
          if interrupt sch then Crashed "KeyboardInterrupt" else finalize st
        else if interrupt sch then
          (* lines 192-195, then the [with] block waits for the pool *)
          let st' := exit_state env target_ip a ports sch in
          match failure st' with
          | Some msg => Crashed msg
          | None =>
              if bool_decide (drain (after sch) (pending st') = [])
              then finalize st' else Waiting
          end
        else Waiting
    end.

Definition main (env : Env) (a : Args) (sch : Schedule) : MainResult :=
  match resolve_target env (target a) with
  | None => SysExit 1
  | Some target_ip =>
      match enumerate_ports (start a) (end_ a) with
      | None => SysExit 1
      | Some ports => scan_all env target_ip a ports sch
      end
  end.

(** The run state when the loop is left, by exhaustion or by the
    interrupt. *)
Definition loop_exit_state (env : Env) (a : Args) (sch : Schedule)
    : option Run :=
  target_ip ← resolve_target env (target a);
  ports ← enumerate_ports (start a) (end_ a);
  Some (exit_state env target_ip a ports sch).


(** ** Predicates used in the statements *)

(** The keys of the dict literal of line 99. *)
Definition field_names : gset string :=
  {[ "port"; "status"; "service"; "banner"; "error" ]}.

Definition has_fields (port : Z) (r : gmap string pyval) : Prop :=
  dom r = field_names ∧ r !! "port" = Some (PInt port).

Definition is_open (r : gmap string pyval) : Prop :=
  r !! "status" = Some (PStr "open").

Global Instance is_open_dec r : Decision (is_open r).
Proof. unfold is_open. apply _. Defined.

Definition has_port (p : Z) (r : gmap string pyval) : Prop :=
  port_key r = Some p.

Global Instance has_port_dec p r : Decision (has_port p r).
Proof. unfold has_port. apply _. Defined.

(** [r1] comes strictly before [r2] in port order. *)
Definition port_lt (r1 r2 : gmap string pyval) : Prop :=
  ∃ p1 p2, port_key r1 = Some p1 ∧ port_key r2 = Some p2 ∧ p1 < p2.

(** Order on the decorated list that [sorted] works on. *)
Definition key_le {A} (x y : Z * A) : Prop := x.1 ≤ y.1.

(** The loop invariant of lines 183-191 over the futures of [ports]:
    every future is collected, finished or pending, exactly once, the
    collected dicts carry their port, and nothing was raised. *)
Definition run_inv (ports : list Z) (st : Run) : Prop :=
  ∃ ks, Forall2 (λ r k, port_key r = Some k) (results st) ks ∧
        ks ++ done st ++ pending st ≡ₚ ports ∧
        failure st = None.

(** [m] keeps the property [I] of the frame, whether it returns or
    raises. *)
Definition preserves {A} (I : Frame → Prop) (m : M A) : Prop :=
  ∀ fr, I fr → I (m fr).1.

(** ** Definitions that follow the words of the specification *)

(** "clamp both to [1, 65535]" *)
Definition clamp_port (x : Z) : Z := Z.max 1 (Z.min 65535 x).

(** The Port Enumerator as section 4.2 words it. *)
Definition spec_enumerate (start_arg end_arg : Z) : option (list Z) :=
  let s := clamp_port start_arg in
  let e := clamp_port end_arg in
  if bool_decide (s > e) then None else Some (seqZ s (e + 1 - s)).

(** The three statuses and their spelling in the dict. *)
Inductive Status := Open | Closed | Filtered.

Definition status_string (st : Status) : string :=
  match st with
  | Open => "open"
  | Closed => "closed"
  | Filtered => "filtered"
  end.

(** What happened to the connection attempt, read off the world; the
    attempt is made once the socket exists and [settimeout] has
    returned. *)
Inductive attempt :=
  | Established           (* connect_ex returned 0 *)
  | Refused               (* connect_ex returned a connection-refused code *)
  | TimedOut              (* socket.timeout was raised *)
  | ConnectFailed.        (* any other error code or exception *)

Definition exn_attempt (e : exn) : attempt :=
  match e with
  | SocketTimeout _ => TimedOut
  | PyException _ => ConnectFailed
  end.

Definition connect_attempt (w : World) (target_ip : string) (port : Z)
    (tmo : pyfloat) : attempt :=
  match w_socket w with
  | Raises e => exn_attempt e
  | Returns _ =>
      match w_settimeout w tmo with
      | Raises e => exn_attempt e
      | Returns _ =>
          match w_connect_ex w target_ip port with
          | Raises e => exn_attempt e
          | Returns err =>
              if bool_decide (err = 0) then Established
              else if bool_decide (err = 111 ∨ err = 10061) then Refused
              else ConnectFailed
          end
      end
  end.

Definition classify (a : attempt) : Status :=
  match a with
  | Established => Open
  | Refused => Closed
  | TimedOut | ConnectFailed => Filtered
  end.

(** ** Worlds and runs used in examples *)

(** [settimeout] as CPython answers it where [poll] is available: NaN
    and a negative timeout are a [ValueError], a timeout whose
    nanoseconds do not fit 64 bits (about 9.22e9 seconds and beyond) is an
    [OverflowError]. *)
Definition py_settimeout (t : pyfloat) : outcome unit :=
  match t with
  | NaN => Raises (PyException "Invalid value NaN (not a number)")
  | Infinite _ =>
      Raises (PyException "timestamp too large to convert to C _PyTime_t")
  | Finite q =>
      if Qle_bool (9223372036854775808 # 1000000000) q
         || Qle_bool q (-9223372036854775808 # 1000000000)
      then Raises (PyException
                     "timestamp too large to convert to C _PyTime_t")
      else if Qle_bool 0 q then Returns tt
      else Raises (PyException "Timeout value out of range")
  end.

Definition ssh_bytes : list Byte.byte :=
  [Byte.x53; Byte.x53; Byte.x48].

(** A listening SSH server. *)
Definition world_open : World :=
  mkWorld (Returns tt) py_settimeout (fun _ _ => Returns 0) (fun _ => Returns "ssh")
          (fun _ => Returns ssh_bytes) (fun _ => Returns "SSH")
          (fun _ => "b'SSH'").

(** A host that answers every connection with a reset. *)
Definition world_refused : World :=
  mkWorld (Returns tt) py_settimeout (fun _ _ => Returns 111)
          (fun _ => Raises (PyException "port/proto not found"))
          (fun _ => Raises (SocketTimeout "timed out"))
          (fun _ => Returns "") (fun _ => "b''").

(** A listening service that sends nothing before the read times out. *)
Definition world_silent : World :=
  mkWorld (Returns tt) py_settimeout (fun _ _ => Returns 0) (fun _ => Returns "http")
          (fun _ => Raises (SocketTimeout "timed out"))
          (fun _ => Returns "") (fun _ => "b''").

(** A host that drops every packet: the connect times out (EAGAIN). *)
Definition world_dropped : World :=
  mkWorld (Returns tt) py_settimeout (fun _ _ => Returns 11)
          (fun _ => Raises (PyException "port/proto not found"))
          (fun _ => Raises (SocketTimeout "timed out"))
          (fun _ => Returns "") (fun _ => "b''").

Definition env_only_2_open : Env :=
  mkEnv (fun h => Some h)
        (fun p => if bool_decide (p = 2) then world_open else world_refused).

Definition args_1_5 : Args :=
  mkArgs "10.0.0.1" 1 5 (1 # 2) 100 false "results".

(** Two probes have completed, one was collected, then Ctrl-C. *)
Definition sched_cancel_2_of_5 : Schedule :=
  mkSchedule [Finish 1; Finish 2; Yield 1] true [3; 4; 5] None.

Definition sched_full_1_5 : Schedule :=
  mkSchedule [Finish 3; Finish 1; Yield 3; Finish 2; Finish 5; Yield 2;
              Yield 1; Finish 4; Yield 4; Yield 5] false [] None.

(** The run in which every probe completes and is collected at once, in
    port order. *)
Definition sequential (ports : list Z) : list event :=
  ports ≫= λ p, [Finish p; Yield p].


(** ** Further definitions: probes, the CSV rows *)

(** The dict that the probe of port [p] returns in a run. *)
Definition probe_dict (env : Env) (target_ip : string) (a : Args) (p : Z)
    : gmap string pyval :=
  result (scan_port (net env p) target_ip p (timeout a) (banner a)).1.

Global Instance attempt_eq_dec : EqDecision attempt.
Proof. solve_decision. Defined.

(** Line 142. *)
Definition csv_keys : list string :=
  ["port"; "status"; "service"; "banner"; "error"].

(** Line 147: [{k: r.get(k, "") for k in keys}], as the cells of the row
    in the order of [fieldnames]. *)
Definition csv_row (r : gmap string pyval) : list pyval :=
  (λ k, default (PStr "") (r !! k)) <$> csv_keys.

(** Lines 141-147: the header row and one row per result. *)
Definition save_results_csv (rs : list (gmap string pyval))
    : list (list pyval) :=
  (PStr <$> csv_keys) :: (csv_row <$> rs).

(** ** [generate_password] *)

(** The [random] module: the generator is a tape of draws.
    [randbelow n] is an index below [n], as [_randbelow(n)] and
    [floor(random() * n)] produce; every index below [n] is the draw of
    some tape. *)
Record Tape := mkTape {
  draws : nat → nat;
  pos : nat
}.

Definition Rand (A : Type) : Type := Tape → A * Tape.

Global Instance Rand_ret : MRet Rand := fun A a tp => (a, tp).
Global Instance Rand_bind : MBind Rand := fun A B f m tp =>
  let (a, tp') := m tp in f a tp'.

Definition randbelow (n : nat) : Rand nat :=
  fun tp => ((draws tp (pos tp) mod n)%nat, mkTape (draws tp) (S (pos tp))).

(** [random.choice(seq)] on a non-empty sequence:
    [seq[randbelow(len(seq))]]. *)
Definition choice (seq : list ascii) : Rand ascii :=
  i ← randbelow (length seq);
  mret (nth i seq "000"%char).

(** [random.choices(population, k=k)]: [k] independent picks. *)
Fixpoint choices (population : list ascii) (k : nat) : Rand (list ascii) :=
  match k with
  | O => mret []
  | S k' =>
      c ← choice population;
      cs ← choices population k';
      mret (c :: cs)
  end.

(** [x[i], x[j] = x[j], x[i]] *)
Definition swap {A} (x : list A) (i j : nat) : list A :=
  match x !! i, x !! j with
  | Some xi, Some xj => <[j:=xi]> (<[i:=xj]> x)
  | _, _ => x
  end.

(** [random.shuffle(x)]:
    [for i in reversed(range(1, len(x))): j = randbelow(i + 1); swap]. *)
Fixpoint shuffle_from {A} (i : nat) (x : list A) : Rand (list A) :=
  match i with
  | O => mret x
  | S i' =>
      j ← randbelow (S i);
      shuffle_from i' (swap x i j)
  end.

Definition shuffle {A} (x : list A) : Rand (list A) :=
  shuffle_from (length x - 1) x.

(** [string.ascii_lowercase], [string.ascii_uppercase], [string.digits]
    and the literal of line 11. *)
Definition lowercase : list ascii :=
  String.list_ascii_of_string "abcdefghijklmnopqrstuvwxyz".
Definition uppercase : list ascii :=
  String.list_ascii_of_string "ABCDEFGHIJKLMNOPQRSTUVWXYZ".
Definition digits : list ascii := String.list_ascii_of_string "0123456789".
Definition special : list ascii := String.list_ascii_of_string "@$!^%|*?&".
Definition all_chars : list ascii := lowercase ++ uppercase ++ digits ++ special.

(** Lines 4-29; the message printed on line 6 is left out. *)
Definition generate_password (length : Z) : Rand string :=
  if bool_decide (length < 6) then mret ""
  else
    c1 ← choice lowercase;
    c2 ← choice uppercase;
    c3 ← choice digits;
    c4 ← choice special;
    rest ← choices all_chars (Z.to_nat (length - 4));
    password ← shuffle ([c1; c2; c3; c4] ++ rest);
    mret (String.string_of_list_ascii password).

(** A tape for examples. *)
Definition tape_squares : Tape := mkTape (fun i => (i * i + 7)%nat) 0.

(** ** [check_password_strength] *)

(** A password is a Python [str]: a list of code points. *)
Definition codes (s : string) : list N := N_of_ascii <$> String.list_ascii_of_string s.

Definition in_range (lo hi c : N) : bool := ((lo <=? c) && (c <=? hi))%N.

(** [re.search(r'[...]', password)] finds a match. *)
Definition search (class : N → bool) (password : list N) : bool :=
  existsb class password.

Definition is_special (c : N) : bool := bool_decide (c ∈ codes "@$!^%|*?&").

Definition weak_list : list (list N) :=
  codes <$> ["password"; "123456"; "qwerty"; "admin"; "letmein"].

Record Report := mkReport {
  score : Z;
  strength : string;
  feedback : list string
}.

Section PasswordStrength.
(** The Unicode tables of the interpreter: the code points that [\d]
    matches, and [str.lower]. *)
Variable unicode_decimal : N → bool.
Variable str_lower : list N → list N.

(** Lines 2-49: the score, the verdict and the feedback lines that the
    function prints. *)
Definition check_password_strength (password : list N) : Report :=
  let len := Z.of_nat (length password) in
  let '(score, feedback) :=
    if bool_decide (12 ≤ len) then (2, [" Good length"])
    else if bool_decide (8 ≤ len) then (1, [" Consider making it longer"])
    else (0, [" Too short!"]) in
  let '(score, feedback) :=
    if search (in_range 65 90) password then (score + 1, feedback)
    else (score, feedback ++ [" Add uppercase letters"]) in
  let '(score, feedback) :=
    if search (in_range 97 122) password then (score + 1, feedback)
    else (score, feedback ++ [" Add lowercase letters"]) in
  let '(score, feedback) :=
    if search unicode_decimal password then (score + 1, feedback)
    else (score, feedback ++ [" Add numbers"]) in
  let '(score, feedback) :=
    if search is_special password then (score + 1, feedback)
    else (score, feedback ++ [" Add special characters (@, $, %, etc.)"]) in
  let '(score, feedback) :=
    if bool_decide (str_lower password ∈ weak_list)
    then (0, feedback ++ [" Common password — too weak!"])
    else (score, feedback) in
  let strength :=
    if bool_decide (6 ≤ score) then " Strong"
    else if bool_decide (3 ≤ score ∧ score < 6) then " Moderate"
    else " Weak" in
  mkReport score strength feedback.
End PasswordStrength.

(** The two tables on ASCII text, for examples. *)
Definition ascii_decimal (c : N) : bool := in_range 48 57 c.
Definition ascii_lower_code (c : N) : N :=
  if in_range 65 90 c then (c + 32)%N else c.
Definition ascii_lower (s : list N) : list N := ascii_lower_code <$> s.

(** * Properties of [scan_port] *)

Example scan_port_open_banner :
  (scan_port world_open "10.0.0.1" 22 (1 # 2) true).2
  = Returns (<["banner" := PStr "SSH"]> (<["service" := PStr "ssh"]>
             (<["status" := PStr "open"]> (init_result 22)))).
Proof. vm_compute. reflexivity. Qed.

(** ** Invariants of the frame, combinator by combinator *)

Section Preserves.
Context {I : Frame → Prop}.

Lemma preserves_ret {A} (a : A) : preserves I (mret a).
Proof. intros fr H. exact H. Qed.

Lemma preserves_raise {A} e : preserves I (@raise A e).
Proof. intros fr H. exact H. Qed.

Lemma preserves_call {A} (o : outcome A) : preserves I (call o).
Proof. intros fr H. exact H. Qed.

Lemma preserves_get_result : preserves I get_result.
Proof. intros fr H. exact H. Qed.

Lemma preserves_bind {A B} (m : M A) (f : A → M B) :
  preserves I m → (∀ a, preserves I (f a)) → preserves I (m ≫= f).
Proof.
  intros Hm Hf fr H. specialize (Hm fr H).
  unfold mbind, M_bind. destruct (m fr) as [fr' [a|e]]; simpl in *.
  - by apply Hf.
  - done.
Qed.

Lemma preserves_try_except {A} (body : M A) handler :
  preserves I body → (∀ e, preserves I (handler e)) →
  preserves I (try_except body handler).
Proof.
  intros Hm Hh fr H. specialize (Hm fr H).
  unfold try_except. destruct (body fr) as [fr' [a|e]]; simpl in *.
  - done.
  - by apply Hh.
Qed.

Lemma preserves_settimeout w t : preserves I (settimeout w t).
Proof. apply preserves_call. Qed.
End Preserves.

(** Only the socket changes in [socket.socket] and [close]; an item
    assignment to one of the four text fields keeps the key set and the
    port. *)
Lemma fields_socket_socket port w :
  preserves (λ fr, has_fields port (result fr)) (socket_socket w).
Proof. intros fr H. unfold socket_socket. by destruct (w_socket w). Qed.

Lemma fields_close port :
  preserves (λ fr, has_fields port (result fr)) close.
Proof. by intros fr H. Qed.

Lemma fields_setitem port k v :
  k ∈ field_names → k ≠ "port" →
  preserves (λ fr, has_fields port (result fr)) (setitem k v).
Proof.
  intros Hk Hne fr [Hdom Hport]. split; simpl.
  - rewrite dom_insert_L, Hdom. apply subseteq_union_1_L.
    by apply singleton_subseteq_l.
  - by rewrite lookup_insert_ne.
Qed.

Create HintDb scan discriminated.
#[local] Hint Resolve preserves_ret preserves_raise preserves_call
  preserves_get_result preserves_settimeout fields_socket_socket
  fields_close : scan.

Ltac fields_step :=
  first
    [ apply preserves_bind; [|intros ?]
    | apply preserves_try_except; [|intros ?]
    | apply fields_setitem; [set_solver | done]
    | solve [eauto with scan]
    | match goal with
      | |- preserves _ (if ?c then _ else _) => destruct c
      | |- preserves _ (match ?e with _ => _ end) => destruct e
      end ].

Lemma fields_scan_port_M port w ip t b :
  preserves (λ fr, has_fields port (result fr)) (scan_port_M w ip port t b).
Proof.
  unfold scan_port_M, scan_body, banner_attempt, scan_handler.
  repeat fields_step.
Qed.

Lemma init_result_fields port : has_fields port (init_result port).
Proof.
  split; unfold init_result.
  - rewrite !dom_insert_L, dom_empty_L. unfold field_names. set_solver.
  - by rewrite lookup_insert_eq.
Qed.

(** ** [scan_port] returns, and returns its local [result] *)

Lemma scan_handler_returns e fr :
  (scan_handler e fr).2 = Returns tt.
Proof. by destruct e. Qed.

Lemma scan_port_M_returns w ip port t b fr :
  (scan_port_M w ip port t b fr).2
  = Returns (result (scan_port_M w ip port t b fr).1).
Proof.
  unfold scan_port_M, mbind, M_bind, try_except, get_result.
  destruct (scan_body w ip port t b fr) as [fr' [[]|e]]; [done|].
  pose proof (scan_handler_returns e fr') as H.
  destruct (scan_handler e fr') as [fr'' [[]|e']]; simpl in *; congruence.
Qed.

Lemma scan_port_returns_fields w ip port t b :
  ∃ r, (scan_port w ip port t b).2 = Returns r ∧ has_fields port r.
Proof.
  eexists; split; [apply scan_port_M_returns|].
  apply (fields_scan_port_M port w ip t b (init_frame port)).
  apply init_result_fields.
Qed.

(** What the outer handlers leave in the dict. *)
Lemma scan_port_after_raise w ip port t b fr e :
  scan_body w ip port t b (init_frame port) = (fr, Raises e) →
  (scan_port w ip port t b).2
  = Returns (result (scan_handler e fr).1).
Proof.
  intros H. unfold scan_port. rewrite scan_port_M_returns.
  unfold scan_port_M, mbind, M_bind, try_except, get_result. rewrite H.
  by destruct (scan_handler e fr) as [fr'' [[]|e']].
Qed.

(** The body ends with [s.close()]: when it returns, the socket is
    released. *)
Lemma scan_body_returns_released w ip port t b fr fr' :
  scan_body w ip port t b fr = (fr', Returns tt) → sock fr' = Released.
Proof.
  unfold scan_body, mbind at 1 2 3 4, M_bind at 1 2 3 4.
  repeat match goal with
  | |- context [match ?m ?x with _ => _ end] =>
      destruct (m x) as [? [?|?]]; try discriminate
  end.
  unfold close. by intros [= <- ].
Qed.

(** ** Case analysis on the answers of the world *)

Lemma refused_codes_spec err : err ∈ refused_codes ↔ err = 111 ∨ err = 10061.
Proof.
  unfold refused_codes. rewrite !elem_of_cons, elem_of_nil. tauto.
Qed.


Ltac unfold_scan :=
  cbv beta iota delta
    [scan_port scan_port_M scan_body scan_handler banner_attempt
     socket_socket settimeout close setitem get_result call raise
     try_except mbind M_bind mret M_ret init_frame result sock fst snd
     connect_attempt exn_attempt].

Ltac scan_step :=
  match goal with
  | |- context [w_socket ?w] => destruct (w_socket w) as [[]|[?|?]] eqn:?
  | |- context [w_settimeout ?w ?t] =>
      destruct (w_settimeout w t) as [[]|[?|?]] eqn:?
  | |- context [w_connect_ex ?w ?a ?b] =>
      destruct (w_connect_ex w a b) as [?|[?|?]] eqn:?
  | |- context [w_getservbyport ?w ?a] =>
      destruct (w_getservbyport w a) as [?|[?|?]] eqn:?
  | |- context [w_recv ?w ?a] =>
      destruct (w_recv w a) as [?|[?|?]] eqn:?
  | |- context [w_decode_strip ?w ?a] =>
      destruct (w_decode_strip w a) as [?|[?|?]] eqn:?
  | |- context [bool_decide ?P] => destruct (bool_decide_reflect P)
  | |- context [if ?b then _ else _] => is_var b; destruct b
  end; cbv beta iota.

(** Reads a key of a dict built by item assignments on [init_result]. *)
Ltac dict_lookup := unfold init_result; by simplify_map_eq.


Example scan_port_refused_closed :
  ∃ r, (scan_port world_refused "10.0.0.1" 81 (1 # 2) true).2 = Returns r ∧
       r !! "status" = Some (PStr "closed").
Proof. eexists. split; reflexivity. Qed.

Example scan_port_dropped_filtered :
  ∃ r, (scan_port world_dropped "10.0.0.1" 81 (1 # 2) true).2 = Returns r ∧
       r !! "status" = Some (PStr "filtered").
Proof. eexists. split; reflexivity. Qed.

(** C2: [scan_port] never raises; when an exception other than
    [socket.timeout] leaves the body of the outer [try], the returned
    dict has status "filtered" and the message of the exception in
    "error"; a [socket.timeout] leaving the body gives "filtered". *)
Theorem scan_port_never_raises w ip port t b :
  ∃ r, (scan_port w ip port t b).2 = Returns r ∧
       (∀ fr msg,
          scan_body w ip port t b (init_frame port)
          = (fr, Raises (PyException msg)) →
          r !! "status" = Some (PStr "filtered") ∧
          r !! "error" = Some (PStr msg)) ∧
       (∀ fr msg,
          scan_body w ip port t b (init_frame port)
          = (fr, Raises (SocketTimeout msg)) →
          r !! "status" = Some (PStr "filtered")).
Proof.
  eexists. split; [apply scan_port_M_returns|]. split.
  - intros fr msg H.
    pose proof (scan_port_after_raise _ _ _ _ _ _ _ H) as Hr.
    unfold scan_port in Hr. rewrite scan_port_M_returns in Hr.
    injection Hr as ->. cbv [scan_handler setitem mbind M_bind result fst].
    by simplify_map_eq.
  - intros fr msg H.
    pose proof (scan_port_after_raise _ _ _ _ _ _ _ H) as Hr.
    unfold scan_port in Hr. rewrite scan_port_M_returns in Hr.
    injection Hr as ->. cbv [scan_handler setitem mbind M_bind result fst].
    by simplify_map_eq.
Qed.

(** [--timeout -1]: the [ValueError] of [settimeout] is recorded. *)
Example scan_port_negative_timeout :
  ∃ r, (scan_port world_open "10.0.0.1" 80 (-1 # 1) false).2 = Returns r ∧
       r !! "status" = Some (PStr "filtered") ∧
       r !! "error" = Some (PStr "Timeout value out of range").
Proof. eexists. split; [reflexivity|]. split; reflexivity. Qed.

(** C3 (the code misses it): with a negative timeout [settimeout]
    raises after the socket was created; the handler of line 136 runs,
    [s.close()] on line 133 is skipped, and [scan_port] returns with the
    socket still allocated. *)
Theorem socket_left_open_on_exception :
  sock (scan_port world_open "127.0.0.1" 80 (-1 # 1) false).1 = Allocated ∧
  ∃ r, (scan_port world_open "127.0.0.1" 80 (-1 # 1) false).2 = Returns r ∧
       r !! "status" = Some (PStr "filtered") ∧
       r !! "error" = Some (PStr "Timeout value out of range").
Proof.
  split; [reflexivity|].
  eexists. split; [reflexivity|]. split; reflexivity.
Qed.

(** The socket is released exactly on the paths where no exception
    reaches the outer handlers. *)
Lemma scan_port_released_iff w ip port t b :
  sock (scan_port w ip port t b).1 = Released ↔
  ∃ fr, scan_body w ip port t b (init_frame port) = (fr, Returns tt).
Proof.
  split.
  - unfold_scan. repeat scan_step; try discriminate; eauto.
  - intros [fr H]. pose proof (scan_body_returns_released _ _ _ _ _ _ _ H).
    unfold scan_port, scan_port_M, mbind, M_bind, try_except, get_result.
    by rewrite H.
Qed.

(** C4: the banner of the returned dict is non-empty only when the
    status is "open" and the banner was requested; and when the read on
    an established connection raises (failure or timeout), the banner
    stays empty, the status stays "open" and no error is recorded. *)
Theorem banner_only_when_open_and_requested w ip port t b :
  ∃ r, (scan_port w ip port t b).2 = Returns r ∧
       (∀ text, r !! "banner" = Some (PStr text) → text ≠ "" →
          r !! "status" = Some (PStr "open") ∧ b = true) ∧
       (∀ e, connect_attempt w ip port t = Established → b = true →
          w_recv w 1024 = Raises e →
          r !! "banner" = Some (PStr "") ∧
          r !! "status" = Some (PStr "open") ∧
          r !! "error" = Some (PStr "")).
Proof.
  unfold_scan. repeat scan_step.
  all: eexists; split; [reflexivity|]; split.
  all: try (intros e0 ? ? ?; first [discriminate | congruence
                                    | split_and!; dict_lookup]).
  all: intros text Htext Hne; unfold init_result in Htext;
    simplify_map_eq; done.
Qed.

Example scan_port_silent_peer :
  ∃ r, (scan_port world_silent "10.0.0.1" 80 (1 # 2) true).2 = Returns r ∧
       r !! "status" = Some (PStr "open") ∧
       r !! "banner" = Some (PStr "") ∧
       r !! "error" = Some (PStr "").
Proof. eexists. split; [reflexivity|]. split_and!; reflexivity. Qed.

(** C9: the returned dict has exactly the five keys "port", "status",
    "service", "banner" and "error", and its "port" is the port argument. *)
Theorem scan_port_five_fields w ip port t b :
  ∃ r, (scan_port w ip port t b).2 = Returns r ∧
       dom r = ({[ "port"; "status"; "service"; "banner"; "error" ]}
                  : gset string) ∧
       r !! "port" = Some (PInt port).
Proof.
  destruct (scan_port_returns_fields w ip port t b) as (r & Hr & Hdom & Hp).
  by exists r.
Qed.

(** C10: when [connect_ex] returns a nonzero code (the socket was
    created and [settimeout] returned, so that the attempt is made), the
    status is "closed" exactly when the code is 111 or 10061, and
    "filtered" for every other code. *)
Theorem nonzero_code_status w ip port t b err :
  w_socket w = Returns tt →
  w_settimeout w t = Returns tt →
  w_connect_ex w ip port = Returns err →
  err ≠ 0 →
  ∃ r, (scan_port w ip port t b).2 = Returns r ∧
       (r !! "status" = Some (PStr "closed") ↔ err = 111 ∨ err = 10061) ∧
       (err ≠ 111 → err ≠ 10061 → r !! "status" = Some (PStr "filtered")).
Proof.
  intros Hs Ht Hc Hne.
  unfold scan_port, scan_port_M, scan_body, socket_socket, settimeout, call,
    try_except, mbind, M_bind, mret, M_ret, close, setitem, get_result,
    init_frame.
  rewrite Hs, Ht, Hc. cbv beta iota.
  rewrite (bool_decide_eq_false_2 _ Hne).
  destruct (decide (err ∈ refused_codes)) as [Hin|Hout].
  - rewrite (bool_decide_eq_true_2 _ Hin). cbv beta iota.
    apply refused_codes_spec in Hin.
    eexists; split; [reflexivity|]. simpl result.
    rewrite lookup_insert_eq. split; [tauto|]. intros; lia.
  - rewrite (bool_decide_eq_false_2 _ Hout). cbv beta iota.
    rewrite refused_codes_spec in Hout.
    eexists; split; [reflexivity|]. simpl result.
    rewrite lookup_insert_eq. split; [|done].
    split; [discriminate|tauto].
Qed.

Lemma nonzero_code_status_witness :
  ∃ r, (scan_port world_dropped "10.0.0.1" 80 (1 # 2) false).2 = Returns r ∧
       (r !! "status" = Some (PStr "closed") ↔ 11 = 111 ∨ 11 = 10061) ∧
       (11 ≠ 111 → 11 ≠ 10061 → r !! "status" = Some (PStr "filtered")).
Proof.
  apply (nonzero_code_status world_dropped "10.0.0.1" 80 (1 # 2) false 11);
    [reflexivity | reflexivity | reflexivity | lia].
Defined.

(** * Properties of the port enumeration *)

Lemma seqZ_Sorted_lt m n : Sorted Z.lt (seqZ m n).
Proof.
  destruct (decide (n ≤ 0)) as [Hn|Hn]; [by rewrite seqZ_nil|].
  rewrite <- (Z2Nat.id n) by lia.
  generalize (Z.to_nat n) as k. clear n Hn. intros k. revert m.
  induction k as [|k IH]; intros m; [by rewrite seqZ_nil|].
  rewrite seqZ_cons by lia. constructor.
  - replace (Z.pred (Z.of_nat (S k))) with (Z.of_nat k) by lia. apply IH.
  - replace (Z.pred (Z.of_nat (S k))) with (Z.of_nat k) by lia.
    destruct k as [|k]; [rewrite seqZ_nil by lia; constructor|].
    rewrite seqZ_cons by lia. constructor. lia.
Qed.

Lemma Sorted_lt_le (l : list Z) : Sorted Z.lt l → Sorted Z.le l.
Proof.
  induction 1 as [|x l Hs IH Hd]; constructor; [done|].
  destruct Hd; constructor. lia.
Qed.

Lemma enumerate_ports_Some start_arg end_arg ports :
  enumerate_ports start_arg end_arg = Some ports →
  Z.max 1 start_arg ≤ Z.min 65535 end_arg ∧
  ports = seqZ (Z.max 1 start_arg)
               (Z.min 65535 end_arg + 1 - Z.max 1 start_arg).
Proof.
  unfold enumerate_ports. case_bool_decide; [done|].
  intros [= <-]. split; [lia|done].
Qed.

(** * Properties of the sort *)

Section StableSort.
Context {A : Type}.
Implicit Types (x : Z * A) (l : list (Z * A)).

Lemma insert_by_key_perm x l : insert_by_key x l ≡ₚ x :: l.
Proof.
  induction l as [|y l IH]; simpl; [done|].
  case_bool_decide; [done|]. rewrite IH. apply perm_swap.
Qed.

Lemma stable_sort_perm l : stable_sort l ≡ₚ l.
Proof.
  induction l as [|x l IH]; simpl; [done|].
  by rewrite insert_by_key_perm, IH.
Qed.

Lemma insert_by_key_HdRel x y l :
  key_le y x → HdRel key_le y l → HdRel key_le y (insert_by_key x l).
Proof.
  intros Hyx Hd. destruct Hd as [|z l Hyz]; simpl.
  - by constructor.
  - case_bool_decide; by constructor.
Qed.

Lemma insert_by_key_Sorted x l :
  Sorted key_le l → Sorted key_le (insert_by_key x l).
Proof.
  induction 1 as [|y l Hs IH Hd]; simpl.
  - repeat constructor.
  - case_bool_decide as Hxy.
    + constructor; [by constructor|]. by constructor.
    + constructor; [done|]. apply insert_by_key_HdRel; [|done].
      unfold key_le. lia.
Qed.

Lemma stable_sort_Sorted l : Sorted key_le (stable_sort l).
Proof.
  induction l as [|x l IH]; simpl; [constructor|].
  by apply insert_by_key_Sorted.
Qed.

Lemma Sorted_key_le_fst l : Sorted key_le l → Sorted Z.le (l.*1).
Proof.
  induction 1 as [|y l Hs IH Hd]; simpl; constructor; [done|].
  destruct Hd; simpl; by constructor.
Qed.
End StableSort.

(** * Properties of the collection loop *)

Lemma remove_port_absent p l : p ∉ l → remove_port p l = l.
Proof.
  unfold remove_port. induction l as [|q l IH]; intros Hp; [done|].
  apply not_elem_of_cons in Hp as [Hne Hp].
  rewrite filter_cons_True by done. by rewrite IH.
Qed.

Lemma remove_port_cons p q l :
  remove_port p (q :: l)
  = if decide (q = p) then remove_port p l else q :: remove_port p l.
Proof.
  unfold remove_port. rewrite filter_cons.
  destruct (decide (q = p)), (decide (q ≠ p)); done.
Qed.

Lemma remove_port_perm p l : NoDup l → p ∈ l → l ≡ₚ p :: remove_port p l.
Proof.
  induction l as [|q l IH]; intros Hnd Hin; [by apply elem_of_nil in Hin|].
  apply NoDup_cons in Hnd as [Hq Hnd]. rewrite remove_port_cons.
  destruct (decide (q = p)) as [->|Hne].
  - by rewrite (remove_port_absent p l).
  - apply elem_of_cons in Hin as [->|Hin]; [done|].
    rewrite (IH Hnd Hin) at 1. apply perm_swap.
Qed.

(** The counter of line 187 counts the collected dicts whose status is
    "open", whatever the pool does. *)
Lemma loop_body_count env ip a p st :
  open_count st = length (filter is_open (results st)) →
  open_count (loop_body env ip a p st)
  = length (filter is_open (results (loop_body env ip a p st))).
Proof.
  intros H. unfold loop_body.
  destruct (scan_port _ _ _ _ _).2 as [res|[msg|msg]]; simpl; [|done..].
  destruct (res !! "status") as [v|] eqn:Hv; simpl.
  - rewrite filter_app, length_app, <- H. case_bool_decide as Hopen.
    + subst v. rewrite filter_cons_True by done. simpl. lia.
    + rewrite filter_cons_False; [simpl; lia|].
      unfold is_open. rewrite Hv. congruence.
  - rewrite filter_app, length_app, <- H.
    rewrite filter_cons_False; [simpl; lia|].
    unfold is_open. by rewrite Hv.
Qed.

Lemma step_count env ip a st e :
  open_count st = length (filter is_open (results st)) →
  open_count (step env ip a st e)
  = length (filter is_open (results (step env ip a st e))).
Proof.
  intros H. destruct e as [p|p]; simpl; case_bool_decide; try done.
  by apply loop_body_count.
Qed.

Lemma collect_count env ip a evs st :
  open_count st = length (filter is_open (results st)) →
  open_count (collect env ip a evs st)
  = length (filter is_open (results (collect env ip a evs st))).
Proof.
  revert st. induction evs as [|e evs IH]; intros st H; [done|].
  apply IH. by apply step_count.
Qed.

(** The loop invariant. *)
Lemma run_inv_init ports : run_inv ports (init_run ports).
Proof. exists []. by split_and!; [constructor|..]. Qed.

Lemma port_key_fields p r : has_fields p r → port_key r = Some p.
Proof. intros [_ Hp]. unfold port_key. by rewrite Hp. Qed.

Lemma status_fields p r : has_fields p r → is_Some (r !! "status").
Proof.
  intros [Hdom _]. apply elem_of_dom. rewrite Hdom.
  unfold field_names. set_solver.
Qed.

Lemma step_inv env ip a ports st e :
  NoDup ports → run_inv ports st → run_inv ports (step env ip a st e).
Proof.
  intros Hnd (ks & Hks & Hperm & Hfail).
  assert (NoDup (ks ++ done st ++ pending st)) as Hnd' by by rewrite Hperm.
  apply NoDup_app in Hnd' as (_ & _ & Hnd').
  apply NoDup_app in Hnd' as (Hdone & _ & Hpend).
  destruct e as [p|p]; simpl; case_bool_decide as Hin; try by exists ks.
  - exists ks. split_and!; simpl; [done| |done].
    rewrite <- Hperm.
    rewrite (remove_port_perm p (pending st) Hpend Hin) at 2.
    solve_Permutation.
  - destruct Hin as [Hin _]. unfold loop_body.
    destruct (scan_port_returns_fields (net env p) ip p (timeout a) (banner a))
      as (r & -> & Hr).
    destruct (status_fields _ _ Hr) as [v ->].
    exists (ks ++ [p]). split_and!; simpl; [|  |done].
    + apply Forall2_app; [done|]. constructor; [|constructor].
      by apply (port_key_fields p).
    + rewrite <- Hperm.
      rewrite (remove_port_perm p (done st) Hdone Hin) at 2.
      solve_Permutation.
Qed.

Lemma collect_inv env ip a ports evs st :
  NoDup ports → run_inv ports st →
  run_inv ports (collect env ip a evs st).
Proof.
  intros Hnd. revert st.
  induction evs as [|e evs IH]; intros st H; [done|].
  apply IH. by apply step_inv.
Qed.

(** The loop only ever appends: what was collected stays collected. *)
Lemma step_results_prefix env ip a st e :
  results st `prefix_of` results (step env ip a st e).
Proof.
  destruct e as [p|p]; simpl; case_bool_decide; try done.
  unfold loop_body.
  destruct (scan_port _ _ _ _ _).2 as [res|[msg|msg]]; simpl; [|done..].
  destruct (res !! "status"); simpl; by apply prefix_app_r.
Qed.

(** * Properties of the summary *)

Lemma sorted_by_port_spec rs ks :
  Forall2 (λ r k, port_key r = Some k) rs ks →
  ∃ srt, sorted_by_port rs = Some srt ∧
         srt ≡ₚ rs ∧
         ∃ sks, sks ≡ₚ ks ∧ Sorted Z.le sks ∧
                Forall2 (λ r k, port_key r = Some k) srt sks.
Proof.
  intros H. unfold sorted_by_port.
  rewrite (mapM_Some_2 _ _ _ H). simpl.
  pose proof (Forall2_length _ _ _ H) as Hlen.
  exists ((stable_sort (zip ks rs)).*2). split_and!; [done| |].
  - rewrite stable_sort_perm. rewrite snd_zip by lia. done.
  - exists ((stable_sort (zip ks rs)).*1). split_and!.
    + rewrite stable_sort_perm. rewrite fst_zip by lia. done.
    + apply Sorted_key_le_fst, stable_sort_Sorted.
    + assert (Forall (λ kr, port_key kr.2 = Some kr.1)
                (stable_sort (zip ks rs))) as HF.
      { rewrite stable_sort_perm. clear Hlen.
        induction H; simpl; constructor; done. }
      induction HF; simpl; constructor; done.
Qed.

Lemma Forall2_port_key_fmap rs ks :
  Forall2 (λ r k, port_key r = Some k) rs ks →
  port_key <$> rs = Some <$> ks.
Proof.
  induction 1 as [|r k rs ks Hk _ IH]; [done|].
  rewrite !fmap_cons. by f_equal.
Qed.

Lemma has_port_count rs ks p :
  port_key <$> rs = Some <$> ks → NoDup ks → p ∈ ks →
  length (filter (has_port p) rs) = 1%nat.
Proof.
  revert ks. induction rs as [|r rs IH]; intros [|k ks] Heq Hnd Hin;
    simplify_eq/=; [by apply elem_of_nil in Hin|].
  apply NoDup_cons in Hnd as [Hk Hnd].
  destruct (decide (k = p)) as [->|Hne].
  - rewrite filter_cons_True by done. simpl. f_equal.
    clear IH Hin Hnd. revert ks Hk H0.
    induction rs as [|r' rs IH]; intros [|k ks] Hk Heq; simplify_eq/=;
      [done|].
    apply not_elem_of_cons in Hk as [Hne Hk].
    rewrite filter_cons_False by (unfold has_port; congruence).
    by apply (IH ks).
  - rewrite filter_cons_False by (unfold has_port; congruence).
    apply elem_of_cons in Hin as [->|Hin]; [done|]. by apply (IH ks).
Qed.

Lemma Sorted_le_NoDup_lt (l : list Z) :
  Sorted Z.le l → NoDup l → StronglySorted Z.lt l.
Proof.
  intros Hs Hnd. apply Sorted_StronglySorted in Hs; [|apply _].
  induction Hs as [|x l Hs IH Hx]; [constructor|].
  apply NoDup_cons in Hnd as [Hx' Hnd]. constructor; [by apply IH|].
  rewrite Forall_forall in Hx |- *. intros y Hy.
  specialize (Hx y Hy). assert (x ≠ y) by (by intros ->). lia.
Qed.

Lemma port_lt_StronglySorted rs ks :
  Forall2 (λ r k, port_key r = Some k) rs ks →
  StronglySorted Z.lt ks → StronglySorted port_lt rs.
Proof.
  induction 1 as [|r k rs ks Hk Hrs IH]; intros Hs; [constructor|].
  apply StronglySorted_inv in Hs as [Hs Hall].
  constructor; [by apply IH|].
  clear IH Hs. induction Hrs as [|r' k' rs ks Hk' _ IH]; [constructor|].
  apply Forall_cons in Hall as [Hlt Hall].
  constructor; [by exists k, k'|by apply IH].
Qed.

(** The state in which the loop is left. *)
Lemma exit_state_uninterrupted env ip a ports sch :
  interrupt sch = false →
  exit_state env ip a ports sch
  = collect env ip a (before sch) (init_run ports).
Proof. intros Hint. unfold exit_state. by rewrite Hint. Qed.

Lemma exit_state_uncut env ip a ports sch :
  cut sch = None →
  exit_state env ip a ports sch
  = collect env ip a (before sch) (init_run ports).
Proof.
  intros Hcut. unfold exit_state. rewrite Hcut.
  by destruct (interrupt sch && negb _).
Qed.

Lemma exit_state_cases env ip a ports sch :
  let st := collect env ip a (before sch) (init_run ports) in
  exit_state env ip a ports sch = st ∨
  ∃ p, cut sch = Some p ∧ interrupt sch = true ∧ loop_ended st = false ∧
       p ∈ done st ∧ failure st = None ∧
       exit_state env ip a ports sch = cut_body env ip a p st.
Proof.
  intros st. unfold exit_state. fold st.
  destruct (interrupt sch) eqn:Hint, (loop_ended st) eqn:Hend; simpl; auto.
  destruct (cut sch) as [p|]; [|auto].
  case_bool_decide as Hp; [|auto]. destruct Hp as [Hp Hf].
  right. exists p. by split_and!.
Qed.

Lemma cut_body_pending env ip a p st :
  pending (cut_body env ip a p st) = pending st.
Proof.
  unfold cut_body. by destruct (scan_port _ _ _ _ _).2 as [res|[msg|msg]].
Qed.

Lemma exit_state_pending env ip a ports sch :
  pending (exit_state env ip a ports sch)
  = pending (collect env ip a (before sch) (init_run ports)).
Proof.
  destruct (exit_state_cases env ip a ports sch)
    as [->|(p & _ & _ & _ & _ & _ & ->)]; [done|].
  apply cut_body_pending.
Qed.

Lemma cut_body_inv env ip a ports p st :
  NoDup ports → p ∈ done st → run_inv ports st →
  run_inv ports (cut_body env ip a p st).
Proof.
  intros Hnd Hin (ks & Hks & Hperm & Hfail).
  assert (NoDup (ks ++ done st ++ pending st)) as Hnd' by by rewrite Hperm.
  apply NoDup_app in Hnd' as (_ & _ & Hnd').
  apply NoDup_app in Hnd' as (Hdone & _ & _).
  unfold cut_body.
  destruct (scan_port_returns_fields (net env p) ip p (timeout a) (banner a))
    as (r & -> & Hr).
  exists (ks ++ [p]). split_and!; simpl; [| |done].
  - apply Forall2_app; [done|]. constructor; [|constructor].
    by apply (port_key_fields p).
  - rewrite <- Hperm.
    rewrite (remove_port_perm p (done st) Hdone Hin) at 2.
    solve_Permutation.
Qed.

Lemma exit_state_inv env ip a ports sch :
  NoDup ports → run_inv ports (exit_state env ip a ports sch).
Proof.
  intros Hnd.
  pose proof (collect_inv env ip a ports (before sch) (init_run ports) Hnd
                (run_inv_init ports)) as Hinv.
  destruct (exit_state_cases env ip a ports sch)
    as [->|(p & _ & _ & _ & Hp & _ & ->)]; [done|].
  by apply cut_body_inv.
Qed.

(** The counter and the list after the loop: they agree, except that an
    iteration cut by the interrupt has appended its dict without counting
    it. *)
Lemma exit_state_count env ip a ports sch :
  let st := exit_state env ip a ports sch in
  (open_count st ≤ length (filter is_open (results st)) ≤ open_count st + 1)%nat
  ∧ (interrupt sch = false ∨ cut sch = None →
     open_count st = length (filter is_open (results st))).
Proof.
  intros st. unfold st.
  pose proof (collect_count env ip a (before sch) (init_run ports) eq_refl)
    as Hc.
  destruct (exit_state_cases env ip a ports sch)
    as [->|(p & Hcut & Hint & _ & _ & _ & ->)].
  - split; [lia|done].
  - split; [|intros [?|?]; congruence].
    unfold cut_body.
    destruct (scan_port _ _ _ _ _).2 as [res|[msg|msg]]; simpl; [|lia..].
    rewrite filter_app, length_app, <- Hc.
    pose proof (length_filter is_open [res]) as Hle. simpl in Hle. lia.
Qed.

(** What a finished run of [main] went through. *)
Lemma main_Finished env a sch s :
  main env a sch = Finished s →
  ∃ ip ports st,
    enumerate_ports (start a) (end_ a) = Some ports ∧
    loop_exit_state env a sch = Some st ∧
    st = exit_state env ip a ports sch ∧
    sorted_by_port (results st) = Some (results_sorted s) ∧
    printed_open_count s = open_count st ∧
    (interrupt sch = false → pending st = [] ∧ done st = []).
Proof.
  unfold main, loop_exit_state.
  destruct (resolve_target env (target a)) as [ip|]; [|done].
  destruct (enumerate_ports (start a) (end_ a)) as [ports|]; [|done].
  simpl. unfold scan_all. case_bool_decide; [done|].
  set (stc := collect env ip a (before sch) (init_run ports)).
  set (st := exit_state env ip a ports sch).
  destruct (failure stc); [done|]. unfold finalize.
  intros Hfin. exists ip, ports, st.
  assert (∃ rs, sorted_by_port (results st) = Some rs ∧
                s = mkSummary rs (open_count st) ∧
                (interrupt sch = false → pending st = [] ∧ done st = []))
    as (rs & Hrs & -> & Hend).
  { destruct (interrupt sch) eqn:Hint.
    - destruct (loop_ended stc); [done|].
      destruct (failure st); [done|]. case_bool_decide; [|done].
      destruct (sorted_by_port (results st)) as [rs|]; [|done].
      simplify_eq. eexists; split_and!; done.
    - assert (st = stc) as -> by by apply exit_state_uninterrupted.
      unfold loop_ended in Hfin. case_bool_decide; [|done].
      destruct (sorted_by_port (results stc)) as [rs|]; [|done].
      simplify_eq. eexists; split_and!; done. }
  by split_and!.
Qed.

Lemma enumerate_ports_NoDup start_arg end_arg ports :
  enumerate_ports start_arg end_arg = Some ports → NoDup ports.
Proof.
  intros H. apply enumerate_ports_Some in H as [_ ->]. apply NoDup_seqZ.
Qed.

(** The summary of a finished run: the collected dicts, sorted strictly
    ascending by port. *)
Lemma main_Finished_sorted env a sch s :
  main env a sch = Finished s →
  ∃ ports st ks sks,
    enumerate_ports (start a) (end_ a) = Some ports ∧
    loop_exit_state env a sch = Some st ∧
    Forall2 (λ r k, port_key r = Some k) (results st) ks ∧
    ks ++ done st ++ pending st ≡ₚ ports ∧
    results_sorted s ≡ₚ results st ∧
    Forall2 (λ r k, port_key r = Some k) (results_sorted s) sks ∧
    sks ≡ₚ ks ∧ StronglySorted Z.lt sks ∧
    ((printed_open_count s ≤ length (filter is_open (results st))
      ≤ printed_open_count s + 1)%nat ∧
     (interrupt sch = false ∨ cut sch = None →
      printed_open_count s = length (filter is_open (results st)))) ∧
    (interrupt sch = false → pending st = [] ∧ done st = []).
Proof.
  intros H.
  apply main_Finished in H
    as (ip & ports & st & Hports & Hst & Hcol & Hsort & Hcount & Hend).
  pose proof (enumerate_ports_NoDup _ _ _ Hports) as Hnd.
  destruct (exit_state_inv env ip a ports sch Hnd) as (ks & Hks & Hperm & _).
  rewrite <- Hcol in Hks, Hperm.
  destruct (sorted_by_port_spec _ _ Hks)
    as (srt & Hsrt & Hp & sks & Hsks & Hsorted & Hkeys).
  rewrite Hsort in Hsrt. injection Hsrt as <-.
  pose proof (exit_state_count env ip a ports sch) as Hc. cbv zeta in Hc.
  rewrite <- Hcol, <- Hcount in Hc. destruct Hc as [[Hc1 Hc2] Hc3].
  exists ports, st, ks, sks. split_and!; try done.
  apply Sorted_le_NoDup_lt; [done|]. rewrite Hsks.
  rewrite <- Hperm in Hnd. by apply NoDup_app in Hnd as (? & _).
Qed.

(** C5, as amended: the start is raised to at least 1 and the end is
    lowered to at most 65535 (the start is not capped from above, nor the
    end from below); when the adjusted start exceeds the adjusted end,
    [main] exits with status 1 whatever the network and the pool would
    do; otherwise the ports are the consecutive integers from the
    adjusted start to the adjusted end, ascending, without duplicates, all
    within 1..65535. *)
Theorem enumerate_ports_one_sided start_arg end_arg :
  let lo := Z.max 1 start_arg in
  let hi := Z.min 65535 end_arg in
  match enumerate_ports start_arg end_arg with
  | None =>
      lo > hi ∧
      ∀ env a sch, start a = start_arg → end_ a = end_arg →
                   main env a sch = SysExit 1
  | Some ports =>
      lo ≤ hi ∧
      (∀ i p, ports !! i = Some p ↔ p = lo + Z.of_nat i ∧ p ≤ hi) ∧
      NoDup ports ∧ Sorted Z.lt ports ∧
      Forall (λ p, 1 ≤ p ≤ 65535) ports
  end.
Proof.
  intros lo hi.
  destruct (enumerate_ports start_arg end_arg) as [ports|] eqn:He.
  - apply enumerate_ports_Some in He as [Hle ->]. fold lo hi in Hle |- *.
    split_and!; [done| |apply NoDup_seqZ|apply seqZ_Sorted_lt|].
    + intros i p. rewrite lookup_seqZ. split; intros [-> ?]; split; lia.
    + apply Forall_seqZ. lia.
  - split.
    + unfold enumerate_ports in He. fold lo hi in He.
      by case_bool_decide.
    + intros env a sch <- <-. unfold main. rewrite He.
      by destruct (resolve_target env (target a)).
Qed.

(** C5, as the claim words it, fails on a request above the port space:
    clamping both ends gives the single port 65535, the code exits. *)
Lemma enumerate_ports_not_two_sided_clamp :
  enumerate_ports 70000 70001 = None ∧
  spec_enumerate 70000 70001 = Some [65535].
Proof. split; reflexivity. Qed.

Example enumerate_below_port_space :
  enumerate_ports (-5) (-3) = None ∧ spec_enumerate (-5) (-3) = Some [1].
Proof. split; reflexivity. Qed.

Example enumerate_20_25 :
  enumerate_ports 20 25 = Some [20; 21; 22; 23; 24; 25].
Proof. reflexivity. Qed.

(** Every valid request has an uninterrupted run that ends with a
    summary: the one where the probes complete and are collected in port
    order. *)
Lemma step_finish_yield env ip a p rest st :
  pending st = p :: rest → p ∉ rest → done st = [] → failure st = None →
  pending (step env ip a (step env ip a st (Finish p)) (Yield p)) = rest ∧
  done (step env ip a (step env ip a st (Finish p)) (Yield p)) = [] ∧
  failure (step env ip a (step env ip a st (Finish p)) (Yield p)) = None.
Proof.
  intros Hpend Hp Hdone Hfail.
  assert (step env ip a st (Finish p)
          = mkRun rest [p] (results st) (open_count st) None) as ->.
  { cbn [step]. rewrite Hpend, Hdone, Hfail.
    rewrite bool_decide_eq_true_2 by apply list_elem_of_here.
    rewrite remove_port_cons, decide_True by done.
    by rewrite remove_port_absent. }
  cbn [step done failure].
  rewrite bool_decide_eq_true_2 by (split; [apply list_elem_of_here|done]).
  unfold loop_body.
  destruct (scan_port_returns_fields (net env p) ip p (timeout a) (banner a))
    as (r & -> & Hr).
  destruct (status_fields _ _ Hr) as [v ->]. cbn [pending done failure].
  split_and!; [done| |done].
  by rewrite remove_port_cons, decide_True.
Qed.

Lemma collect_sequential env ip a ports st :
  NoDup ports → pending st = ports → done st = [] → failure st = None →
  pending (collect env ip a (sequential ports) st) = [] ∧
  done (collect env ip a (sequential ports) st) = [] ∧
  failure (collect env ip a (sequential ports) st) = None.
Proof.
  intros Hnd. revert st.
  induction Hnd as [|p ports Hp Hnd IH]; intros st Hpend Hdone Hfail; [done|].
  change (sequential (p :: ports))
    with (Finish p :: Yield p :: sequential ports).
  unfold collect. cbn [foldl]. fold (collect env ip a (sequential ports)).
  destruct (step_finish_yield env ip a p ports st Hpend Hp Hdone Hfail)
    as (H1 & H2 & H3).
  by apply IH.
Qed.

Lemma main_finishes_sequentially env a ip ports :
  resolve_target env (target a) = Some ip →
  enumerate_ports (start a) (end_ a) = Some ports →
  0 < workers a →
  ∃ s, main env a (mkSchedule (sequential ports) false [] None) = Finished s.
Proof.
  intros Hip Hports Hw. unfold main. rewrite Hip, Hports.
  pose proof (enumerate_ports_NoDup _ _ _ Hports) as Hnd.
  unfold scan_all. rewrite bool_decide_eq_false_2 by lia. cbn [before interrupt].
  destruct (collect_sequential env ip a ports (init_run ports) Hnd
              eq_refl eq_refl eq_refl) as (Hpend & Hdone & Hfail).
  destruct (collect_inv env ip a ports (sequential ports) (init_run ports) Hnd
              (run_inv_init ports)) as (ks & Hks & _ & _).
  destruct (sorted_by_port_spec _ _ Hks) as (srt & Hsrt & _).
  rewrite Hfail. unfold loop_ended.
  rewrite bool_decide_eq_true_2 by done.
  unfold finalize. rewrite Hsrt. by eexists.
Qed.

(** C7: in the summary of an uninterrupted run every port of the range
    is the port of exactly one dict, and the dicts are in strictly
    ascending port order. *)
Theorem uninterrupted_run_one_result_per_port env a sch s :
  main env a sch = Finished s →
  interrupt sch = false →
  port_key <$> results_sorted s
  = Some <$> seqZ (Z.max 1 (start a))
                  (Z.min 65535 (end_ a) + 1 - Z.max 1 (start a)) ∧
  (∀ p, Z.max 1 (start a) ≤ p ≤ Z.min 65535 (end_ a) →
        length (filter (has_port p) (results_sorted s)) = 1%nat) ∧
  StronglySorted port_lt (results_sorted s).
Proof.
  intros H Hint.
  apply main_Finished_sorted in H
    as (ports & st & ks & sks & Hports & _ & _ & Hperm & _ & Hkeys & Hsks
        & Hsorted & _ & Hend).
  destruct (Hend Hint) as [Hpend Hdone].
  rewrite Hpend, Hdone, !app_nil_r in Hperm.
  apply enumerate_ports_Some in Hports as [Hle ->].
  assert (sks = seqZ (Z.max 1 (start a))
                     (Z.min 65535 (end_ a) + 1 - Z.max 1 (start a))) as ->.
  { apply (Sorted_unique Z.le).
    - apply Sorted_lt_le, StronglySorted_Sorted, Hsorted.
    - apply Sorted_lt_le, seqZ_Sorted_lt.
    - by rewrite Hsks. }
  pose proof (Forall2_port_key_fmap _ _ Hkeys) as Heq.
  split_and!; [done| |by eapply port_lt_StronglySorted].
  intros p Hp. eapply has_port_count; [done|apply NoDup_seqZ|].
  apply elem_of_seqZ. lia.
Qed.

Lemma uninterrupted_run_one_result_per_port_witness :
  ∃ s, main env_only_2_open args_1_5 sched_full_1_5 = Finished s ∧
       port_key <$> results_sorted s = Some <$> seqZ 1 5 ∧
       (∀ p, 1 ≤ p ≤ 5 →
             length (filter (has_port p) (results_sorted s)) = 1%nat) ∧
       StronglySorted port_lt (results_sorted s).
Proof.
  eexists. split; [reflexivity|].
  apply (uninterrupted_run_one_result_per_port
           env_only_2_open args_1_5 sched_full_1_5); reflexivity.
Defined.




Example scenario_1_3_only_2_open :
  ∃ s, main env_only_2_open
            (mkArgs "10.0.0.1" 1 3 (1 # 2) 100 false "results")
            (mkSchedule [Finish 2; Finish 1; Yield 2; Finish 3; Yield 3;
                         Yield 1] false [] None)
       = Finished s ∧
       (λ r, r !! "status") <$> results_sorted s
       = [Some (PStr "closed"); Some (PStr "open"); Some (PStr "closed")] ∧
       printed_open_count s = 1%nat.
Proof. eexists. split; [reflexivity|]. split; reflexivity. Qed.





(** * Further properties of [scan_port] *)

(** The status of the returned dict, for use in the properties of
    [main]. *)
Lemma probe_dict_returned env ip a p :
  (scan_port (net env p) ip p (timeout a) (banner a)).2
  = Returns (probe_dict env ip a p).
Proof. apply scan_port_M_returns. Qed.

Lemma probe_dict_status env ip a p :
  probe_dict env ip a p !! "status"
  = Some (PStr (status_string
                  (classify (connect_attempt (net env p) ip p (timeout a))))).
Proof.
  unfold probe_dict. generalize (net env p) (timeout a) (banner a).
  intros w t b. unfold_scan. repeat scan_step.
  all: try match goal with
       | H : _ ∈ refused_codes |- _ => apply refused_codes_spec in H
       | H : ¬ (_ ∈ refused_codes) |- _ => rewrite refused_codes_spec in H
       end; try tauto.
  all: cbv [status_string classify]; dict_lookup.
Qed.

(** X1: the socket is released exactly when it was created,
    [settimeout] returned and [connect_ex] returned an error code (0 or
    not). *)
Theorem socket_released_iff_connect_returned w ip port t b :
  sock (scan_port w ip port t b).1 = Released ↔
  w_socket w = Returns tt ∧ w_settimeout w t = Returns tt ∧
  ∃ err, w_connect_ex w ip port = Returns err.
Proof.
  unfold_scan. repeat scan_step; cbv [sock]; split;
    try discriminate; try (intros (? & ? & ? & ?); discriminate);
    eauto.
Qed.

(** X2: the service name and the error text go with the status: a service
    name is only present on an open port, an error text only on a
    filtered one. *)
Theorem service_and_error_follow_status w ip port t b :
  ∃ r, (scan_port w ip port t b).2 = Returns r ∧
       (∀ text, r !! "service" = Some (PStr text) → text ≠ "" →
                r !! "status" = Some (PStr "open")) ∧
       (∀ text, r !! "error" = Some (PStr text) → text ≠ "" →
                r !! "status" = Some (PStr "filtered")).
Proof.
  unfold_scan. repeat scan_step.
  all: eexists; split; [reflexivity|]; split.
  all: intros text Htext Hne; unfold init_result in *;
    simplify_map_eq; done.
Qed.

(** X3: asking for the banner changes no other field of the result. *)
Theorem banner_flag_only_changes_banner w ip port t key :
  key ≠ "banner" →
  ∃ r1 r2, (scan_port w ip port t true).2 = Returns r1 ∧
           (scan_port w ip port t false).2 = Returns r2 ∧
           r1 !! key = r2 !! key.
Proof.
  intros Hkey. unfold_scan. repeat scan_step.
  all: eexists _, _; split_and!; [reflexivity..|].
  all: by rewrite ?(lookup_insert_ne _ "banner") by done.
Qed.

Lemma banner_flag_only_changes_banner_witness :
  ∃ r1 r2, (scan_port world_open "10.0.0.1" 22 (1 # 2) true).2 = Returns r1 ∧
           (scan_port world_open "10.0.0.1" 22 (1 # 2) false).2 = Returns r2 ∧
           r1 !! "service" = r2 !! "service".
Proof.
  apply (banner_flag_only_changes_banner world_open "10.0.0.1" 22 (1 # 2)
           "service").
  discriminate.
Defined.

(** X4: when [settimeout] rejects the timeout, the probe is "filtered"
    whatever the host would answer: the connection is not attempted.  If
    the socket had been created, the error field holds the message of
    the exception, unless that is a [socket.timeout]. *)
Theorem rejected_timeout_always_filtered w ip port t b e :
  w_settimeout w t = Raises e →
  ∃ r, (scan_port w ip port t b).2 = Returns r ∧
       r !! "status" = Some (PStr "filtered") ∧
       (w_socket w = Returns tt →
        ∀ msg, e = PyException msg → r !! "error" = Some (PStr msg)).
Proof.
  intros Ht.
  unfold scan_port, scan_port_M, scan_body, socket_socket, settimeout, call,
    try_except, mbind, M_bind, get_result, init_frame.
  rewrite Ht. destruct (w_socket w) as [[]|[m|m]], e as [m'|m'];
    cbv beta iota.
  all: eexists; split; [reflexivity|]; split; [dict_lookup|].
  all: intros Hs msg Hmsg; simplify_eq; dict_lookup.
Qed.

Lemma rejected_timeout_always_filtered_witness :
  ∃ r, (scan_port world_open "10.0.0.1" 22 (-1 # 2) true).2 = Returns r ∧
       r !! "status" = Some (PStr "filtered") ∧
       (w_socket world_open = Returns tt →
        ∀ msg, PyException "Timeout value out of range" = PyException msg →
               r !! "error" = Some (PStr msg)).
Proof.
  apply (rejected_timeout_always_filtered world_open "10.0.0.1" 22 (-1 # 2)
           true (PyException "Timeout value out of range")).
  reflexivity.
Defined.

(** The three rejections of CPython: too large, negative, not a
    number. *)
Example scan_port_huge_timeout :
  ∃ r, (scan_port world_open "10.0.0.1" 22 (10000000000 # 1) true).2
       = Returns r ∧
       r !! "status" = Some (PStr "filtered") ∧
       r !! "error"
       = Some (PStr "timestamp too large to convert to C _PyTime_t").
Proof. eexists. split; [reflexivity|]. split; reflexivity. Qed.

Example scan_port_nan_timeout :
  ∃ r, (scan_port world_open "10.0.0.1" 22 NaN true).2 = Returns r ∧
       r !! "status" = Some (PStr "filtered") ∧
       r !! "error" = Some (PStr "Invalid value NaN (not a number)").
Proof. eexists. split; [reflexivity|]. split; reflexivity. Qed.

(** * Further properties of [main] *)

Lemma loop_body_probes env ip a p st :
  Forall (λ r, ∃ k, port_key r = Some k ∧ r = probe_dict env ip a k)
         (results st) →
  Forall (λ r, ∃ k, port_key r = Some k ∧ r = probe_dict env ip a k)
         (results (loop_body env ip a p st)).
Proof.
  intros H. unfold loop_body. rewrite probe_dict_returned.
  assert (port_key (probe_dict env ip a p) = Some p) as Hp.
  { destruct (scan_port_returns_fields (net env p) ip p (timeout a)
                (banner a)) as (r & Hr & Hf).
    rewrite probe_dict_returned in Hr. injection Hr as <-.
    by apply port_key_fields. }
  destruct (probe_dict env ip a p !! "status"); simpl;
    (apply Forall_app; split; [done|]); repeat constructor; eauto.
Qed.

Lemma collect_probes env ip a evs st :
  Forall (λ r, ∃ k, port_key r = Some k ∧ r = probe_dict env ip a k)
         (results st) →
  Forall (λ r, ∃ k, port_key r = Some k ∧ r = probe_dict env ip a k)
         (results (collect env ip a evs st)).
Proof.
  revert st. induction evs as [|e evs IH]; intros st H; [done|].
  apply IH. destruct e as [p|p]; simpl; case_bool_decide; try done.
  by apply loop_body_probes.
Qed.

Lemma exit_state_probes env ip a ports sch :
  Forall (λ r, ∃ k, port_key r = Some k ∧ r = probe_dict env ip a k)
         (results (exit_state env ip a ports sch)).
Proof.
  pose proof (collect_probes env ip a (before sch) (init_run ports)
                (Forall_nil_2 _)) as Hc.
  destruct (exit_state_cases env ip a ports sch)
    as [->|(p & _ & _ & _ & _ & _ & ->)]; [done|].
  unfold cut_body. rewrite probe_dict_returned. simpl.
  apply Forall_app. split; [done|]. repeat constructor.
  exists p. split; [|done].
  destruct (scan_port_returns_fields (net env p) ip p (timeout a)
              (banner a)) as (r & Hr & Hf).
  rewrite probe_dict_returned in Hr. injection Hr as <-.
  by apply port_key_fields.
Qed.

Lemma loop_exit_state_resolved env a sch ip ports :
  resolve_target env (target a) = Some ip →
  enumerate_ports (start a) (end_ a) = Some ports →
  loop_exit_state env a sch = Some (exit_state env ip a ports sch).
Proof. intros Hip Hports. unfold loop_exit_state. by rewrite Hip, Hports. Qed.

Lemma main_Finished_resolved env a sch s :
  main env a sch = Finished s →
  ∃ ip, resolve_target env (target a) = Some ip.
Proof.
  unfold main. destruct (resolve_target env (target a)); [eauto|done].
Qed.

(** The entries of the summary of a finished run: probe results of
    distinct ports of the range, in ascending order; all of the range
    when the run was not interrupted. *)
Lemma finished_run_entries env a sch s ip :
  main env a sch = Finished s →
  resolve_target env (target a) = Some ip →
  ∃ sks,
    results_sorted s = probe_dict env ip a <$> sks ∧
    StronglySorted Z.lt sks ∧
    sks ⊆ seqZ (Z.max 1 (start a))
               (Z.min 65535 (end_ a) + 1 - Z.max 1 (start a)) ∧
    (interrupt sch = false →
     sks = seqZ (Z.max 1 (start a))
                (Z.min 65535 (end_ a) + 1 - Z.max 1 (start a))) ∧
    (interrupt sch = false ∨ cut sch = None →
     printed_open_count s = length (filter is_open (results_sorted s))).
Proof.
  intros Hmain Hip.
  destruct (main_Finished_sorted _ _ _ _ Hmain)
    as (ports & st & ks & sks & Hports & Hst & _ & Hperm & Hp & Hkeys & Hsks
        & Hsorted & [_ Hcount] & Hend).
  rewrite (loop_exit_state_resolved _ _ _ _ _ Hip Hports) in Hst.
  injection Hst as <-.
  pose proof Hports as Hrange. apply enumerate_ports_Some in Hrange as [_ ->].
  exists sks. split_and!.
  - assert (Forall (λ r, ∃ k, port_key r = Some k ∧ r = probe_dict env ip a k)
              (results_sorted s)) as Hall.
    { rewrite Hp. apply exit_state_probes. }
    clear -Hkeys Hall. induction Hkeys as [|r k rs ks Hk _ IH]; [done|].
    apply Forall_cons in Hall as [(k' & Hk' & ->) Hall].
    rewrite fmap_cons. f_equal; [congruence|by apply IH].
  - done.
  - intros k Hk. rewrite <- Hperm. apply elem_of_app. left. by rewrite <- Hsks.
  - intros Hint. destruct (Hend Hint) as [Hpend Hdone].
    rewrite Hpend, Hdone, !app_nil_r in Hperm.
    apply (Sorted_unique Z.le).
    + apply Sorted_lt_le, StronglySorted_Sorted, Hsorted.
    + apply Sorted_lt_le, seqZ_Sorted_lt.
    + by rewrite Hsks.
  - by rewrite Hp.
Qed.

Lemma is_open_probe_dict env ip a p :
  is_open (probe_dict env ip a p) ↔
  connect_attempt (net env p) ip p (timeout a) = Established.
Proof.
  unfold is_open. rewrite probe_dict_status.
  destruct (connect_attempt _ _ _ _); simpl; split; congruence.
Qed.

(** X5: the summary of an uninterrupted run does not depend on the order in
    which the probes complete and are collected: it is the list of the
    probe results of the ports of the range, in ascending order. *)
Theorem uninterrupted_summary_is_schedule_independent env a sch s ip :
  main env a sch = Finished s →
  resolve_target env (target a) = Some ip →
  interrupt sch = false →
  results_sorted s
  = probe_dict env ip a
      <$> seqZ (Z.max 1 (start a))
               (Z.min 65535 (end_ a) + 1 - Z.max 1 (start a)).
Proof.
  intros Hmain Hip Hint.
  destruct (finished_run_entries _ _ _ _ _ Hmain Hip)
    as (sks & Hrs & _ & _ & Hall & _).
  by rewrite Hrs, (Hall Hint).
Qed.

Lemma uninterrupted_summary_is_schedule_independent_witness :
  ∃ s, main env_only_2_open args_1_5 sched_full_1_5 = Finished s ∧
       results_sorted s
       = probe_dict env_only_2_open "10.0.0.1" args_1_5 <$> seqZ 1 5.
Proof.
  eexists. split; [reflexivity|].
  apply (uninterrupted_summary_is_schedule_independent
           env_only_2_open args_1_5 sched_full_1_5); reflexivity.
Defined.

(** X6: in every finished run, interrupted or not, each entry of the
    summary is what [scan_port] returned for a port of the range, and the
    entries are in strictly ascending port order (so no port occurs
    twice). *)
Theorem summary_entries_are_probe_results env a sch s ip :
  main env a sch = Finished s →
  resolve_target env (target a) = Some ip →
  StronglySorted port_lt (results_sorted s) ∧
  Forall (λ r, ∃ p, Z.max 1 (start a) ≤ p ≤ Z.min 65535 (end_ a) ∧
                    r !! "port" = Some (PInt p) ∧
                    (scan_port (net env p) ip p (timeout a) (banner a)).2
                    = Returns r)
         (results_sorted s).
Proof.
  intros Hmain Hip.
  destruct (finished_run_entries _ _ _ _ _ Hmain Hip)
    as (sks & Hrs & Hsorted & Hsub & _ & _).
  assert (∀ p, port_key (probe_dict env ip a p) = Some p) as Hkey.
  { intros p.
    destruct (scan_port_returns_fields (net env p) ip p (timeout a)
                (banner a)) as (r & Hr & Hf).
    rewrite probe_dict_returned in Hr. injection Hr as <-.
    by apply port_key_fields. }
  rewrite Hrs. split.
  - apply (port_lt_StronglySorted _ sks); [|done].
    clear -Hkey. induction sks as [|k sks IH]; [constructor|].
    rewrite fmap_cons. constructor; [apply Hkey|apply IH].
  - apply Forall_fmap, Forall_forall. intros p Hp. exists p. simpl.
    apply Hsub, elem_of_seqZ in Hp. split_and!; [lia..| |].
    + specialize (Hkey p). unfold port_key in Hkey.
      destruct (probe_dict env ip a p !! "port") as [[n|t]|]; congruence.
    + apply probe_dict_returned.
Qed.

Lemma summary_entries_are_probe_results_witness :
  ∃ s, main env_only_2_open args_1_5 sched_cancel_2_of_5 = Finished s ∧
       StronglySorted port_lt (results_sorted s) ∧
       Forall (λ r, ∃ p, 1 ≤ p ≤ 5 ∧ r !! "port" = Some (PInt p) ∧
                         (scan_port (net env_only_2_open p) "10.0.0.1" p
                            (1 # 2) false).2 = Returns r)
              (results_sorted s).
Proof.
  eexists. split; [reflexivity|].
  apply (summary_entries_are_probe_results
           env_only_2_open args_1_5 sched_cancel_2_of_5); reflexivity.
Defined.

(** X7: the open-port count printed after an uninterrupted run is the number
    of ports of the range on which [connect_ex] returned 0. *)
Theorem open_count_counts_established env a sch s ip :
  main env a sch = Finished s →
  resolve_target env (target a) = Some ip →
  interrupt sch = false →
  printed_open_count s
  = length (filter
              (λ p, connect_attempt (net env p) ip p (timeout a) = Established)
              (seqZ (Z.max 1 (start a))
                    (Z.min 65535 (end_ a) + 1 - Z.max 1 (start a)))).
Proof.
  intros Hmain Hip Hint.
  destruct (finished_run_entries _ _ _ _ _ Hmain Hip)
    as (sks & Hrs & _ & _ & Hall & Hcount).
  rewrite (Hcount (or_introl Hint)), Hrs, (Hall Hint).
  generalize (seqZ (Z.max 1 (start a))
                   (Z.min 65535 (end_ a) + 1 - Z.max 1 (start a))).
  intros l. induction l as [|p l IH]; [done|].
  rewrite fmap_cons.
  destruct (decide (connect_attempt (net env p) ip p (timeout a)
                    = Established)) as [He|He].
  - rewrite !filter_cons_True; [simpl; by rewrite IH|done|].
    by apply is_open_probe_dict.
  - rewrite !filter_cons_False; [done|done|].
    by rewrite is_open_probe_dict.
Qed.

Lemma open_count_counts_established_witness :
  ∃ s, main env_only_2_open args_1_5 sched_full_1_5 = Finished s ∧
       printed_open_count s
       = length (filter
                   (λ p, connect_attempt (net env_only_2_open p) "10.0.0.1" p
                                         (1 # 2) = Established)
                   (seqZ 1 5)).
Proof.
  eexists. split; [reflexivity|].
  apply (open_count_counts_established
           env_only_2_open args_1_5 sched_full_1_5); reflexivity.
Defined.



(** X10: the loop only appends to [results]: whatever the pool does next, the
    dicts collected so far stay where they are. *)
Theorem collect_only_appends env ip a evs st :
  results st `prefix_of` results (collect env ip a evs st).
Proof.
  revert st. induction evs as [|e evs IH]; intros st; [done|].
  etrans; [apply (step_results_prefix env ip a st e)|apply IH].
Qed.

(** * Properties of [save_results_csv] *)

Lemma csv_keys_fields k : k ∈ csv_keys → k ∈ field_names.
Proof.
  unfold csv_keys, field_names.
  rewrite !elem_of_cons, elem_of_nil, !elem_of_union, !elem_of_singleton.
  tauto.
Qed.

(** X11: the CSV of a finished run has the header and one row per collected
    result; every cell of a row is the value stored in the dict (the
    default of [r.get] is never used), and the port column ascends. *)
Theorem csv_rows_of_summary env a sch s :
  main env a sch = Finished s →
  ∃ rows,
    save_results_csv (results_sorted s) = (PStr <$> csv_keys) :: rows ∧
    Forall2 (λ row r, Forall2 (λ cell k, r !! k = Some cell) row csv_keys)
            rows (results_sorted s) ∧
    StronglySorted (λ row1 row2, ∃ p1 p2, row1 !! 0%nat = Some (PInt p1) ∧
                                          row2 !! 0%nat = Some (PInt p2) ∧
                                          p1 < p2) rows.
Proof.
  intros Hmain. destruct (main_Finished_resolved _ _ _ _ Hmain) as [ip Hip].
  destruct (finished_run_entries _ _ _ _ _ Hmain Hip)
    as (sks & Hrs & Hsorted & _).
  assert (∀ p, has_fields p (probe_dict env ip a p)) as Hf.
  { intros p.
    destruct (scan_port_returns_fields (net env p) ip p (timeout a)
                (banner a)) as (r & Hr & Hf).
    rewrite probe_dict_returned in Hr. by injection Hr as <-. }
  exists (csv_row <$> results_sorted s). split_and!; [done| |].
  - apply Forall2_fmap_l, Forall_Forall2_diag, Forall_forall.
    intros r Hr. rewrite Hrs in Hr. apply list_elem_of_fmap in Hr as (p & -> & _).
    unfold csv_row. apply Forall2_fmap_l, Forall_Forall2_diag, Forall_forall.
    intros k Hk. destruct (Hf p) as [Hdom _].
    assert (is_Some (probe_dict env ip a p !! k)) as [v Hv].
    { apply elem_of_dom. rewrite Hdom. by apply csv_keys_fields. }
    simpl. by rewrite Hv.
  - rewrite Hrs, <- list_fmap_compose. clear -Hsorted Hf.
    induction Hsorted as [|k ks Hs IH Hall]; [constructor|].
    rewrite fmap_cons. constructor; [done|].
    apply Forall_fmap, Forall_forall. intros k' Hk'.
    rewrite Forall_forall in Hall. specialize (Hall k' Hk').
    exists k, k'. simpl. destruct (Hf k) as [_ ->], (Hf k') as [_ ->]. done.
Qed.

Lemma csv_rows_of_summary_witness :
  ∃ s rows,
    main env_only_2_open args_1_5 sched_full_1_5 = Finished s ∧
    save_results_csv (results_sorted s) = (PStr <$> csv_keys) :: rows ∧
    length rows = 5%nat.
Proof.
  destruct (csv_rows_of_summary env_only_2_open args_1_5 sched_full_1_5 _
              eq_refl) as (rows & Hrows & Hcells & _).
  eexists _, rows. split_and!; [reflexivity|exact Hrows|].
  apply Forall2_length in Hcells. rewrite Hcells. reflexivity.
Defined.

(** * Properties of [generate_password] *)

Lemma randbelow_lt n tp : (0 < n)%nat → ((randbelow n tp).1 < n)%nat.
Proof. intros Hn. simpl. apply Nat.mod_upper_bound. lia. Qed.

Lemma choice_elem seq tp : seq ≠ [] → (choice seq tp).1 ∈ seq.
Proof.
  intros Hne. unfold choice, mbind, Rand_bind, mret, Rand_ret.
  destruct (randbelow (length seq) tp) as [i tp'] eqn:Hi. simpl.
  apply list_elem_of_In, nth_In.
  replace i with (randbelow (length seq) tp).1 by by rewrite Hi.
  apply randbelow_lt. destruct seq; simpl; [done|lia].
Qed.

Lemma choices_length seq k tp : length (choices seq k tp).1 = k.
Proof.
  revert tp. induction k as [|k IH]; intros tp; [done|]. simpl.
  unfold mbind, Rand_bind, mret, Rand_ret.
  destruct (choice seq tp) as [c tp1].
  specialize (IH tp1). destruct (choices seq k tp1) as [cs tp2].
  simpl in *. by rewrite IH.
Qed.

Lemma choices_Forall seq k tp :
  seq ≠ [] → Forall (λ c, c ∈ seq) (choices seq k tp).1.
Proof.
  intros Hne. revert tp. induction k as [|k IH]; intros tp; [constructor|].
  simpl. unfold mbind, Rand_bind, mret, Rand_ret.
  pose proof (choice_elem seq tp Hne) as Hc.
  destruct (choice seq tp) as [c tp1].
  specialize (IH tp1). destruct (choices seq k tp1) as [cs tp2].
  simpl in *. by constructor.
Qed.

(** Replacing an element by another one, seen as a permutation. *)
Lemma insert_replaces {A} (l : list A) j x y :
  l !! j = Some y → y :: <[j:=x]> l ≡ₚ x :: l.
Proof.
  revert j. induction l as [|b l IH]; intros [|j] Hj; simplify_eq/=.
  - apply perm_swap.
  - rewrite perm_swap. rewrite (IH j Hj). apply perm_swap.
Qed.

Lemma swap_perm {A} (x : list A) i j : swap x i j ≡ₚ x.
Proof.
  unfold swap.
  destruct (x !! i) as [xi|] eqn:Hi; [|done].
  destruct (x !! j) as [xj|] eqn:Hj; [|done].
  destruct (decide (i = j)) as [->|Hne].
  - simplify_eq. rewrite list_insert_insert_eq. by rewrite list_insert_id.
  - apply (Permutation_cons_inv (a := xj)).
    rewrite (insert_replaces _ j xi xj).
    + apply (insert_replaces x i xj xi Hi).
    + by rewrite list_lookup_insert_ne.
Qed.

Lemma shuffle_from_perm {A} i (x : list A) tp :
  (shuffle_from i x tp).1 ≡ₚ x.
Proof.
  revert x tp. induction i as [|i IH]; intros x tp; [done|].
  simpl. unfold mbind, Rand_bind.
  destruct (randbelow (S (S i)) tp) as [j tp1].
  rewrite IH. apply swap_perm.
Qed.

Lemma shuffle_perm {A} (x : list A) tp : (shuffle x tp).1 ≡ₚ x.
Proof. apply shuffle_from_perm. Qed.

Lemma list_ascii_roundtrip l :
  String.list_ascii_of_string (String.string_of_list_ascii l) = l.
Proof. induction l as [|c l IH]; simpl; [done|by rewrite IH]. Qed.

(** What [generate_password] returns for an accepted length, before the
    join. *)
Lemma generate_password_chars n tp :
  6 ≤ n →
  ∃ c1 c2 c3 c4 rest,
    c1 ∈ lowercase ∧ c2 ∈ uppercase ∧ c3 ∈ digits ∧ c4 ∈ special ∧
    Forall (λ c, c ∈ all_chars) rest ∧ length rest = Z.to_nat (n - 4) ∧
    String.list_ascii_of_string (generate_password n tp).1
    ≡ₚ [c1; c2; c3; c4] ++ rest.
Proof.
  intros Hn. unfold generate_password.
  rewrite bool_decide_eq_false_2 by lia.
  unfold mbind, Rand_bind, mret, Rand_ret.
  pose proof (choice_elem lowercase tp) as H1.
  destruct (choice lowercase tp) as [c1 tp1].
  pose proof (choice_elem uppercase tp1) as H2.
  destruct (choice uppercase tp1) as [c2 tp2].
  pose proof (choice_elem digits tp2) as H3.
  destruct (choice digits tp2) as [c3 tp3].
  pose proof (choice_elem special tp3) as H4.
  destruct (choice special tp3) as [c4 tp4].
  pose proof (choices_Forall all_chars (Z.to_nat (n - 4)) tp4) as H5.
  pose proof (choices_length all_chars (Z.to_nat (n - 4)) tp4) as H6.
  destruct (choices all_chars (Z.to_nat (n - 4)) tp4) as [rest tp5].
  pose proof (shuffle_perm ([c1; c2; c3; c4] ++ rest) tp5) as H7.
  destruct (shuffle ([c1; c2; c3; c4] ++ rest) tp5) as [pw tp6].
  cbn [fst] in *. exists c1, c2, c3, c4, rest.
  rewrite list_ascii_roundtrip. split_and!; auto.
Qed.

(** X12: for a length of at least 6 the password has exactly that many
    characters, at least one lowercase letter, one uppercase letter, one
    digit and one special character, and nothing outside these four
    alphabets. *)
Theorem generate_password_shape n tp :
  6 ≤ n →
  let chars := String.list_ascii_of_string (generate_password n tp).1 in
  Z.of_nat (length chars) = n ∧
  (∃ c, c ∈ chars ∧ c ∈ lowercase) ∧
  (∃ c, c ∈ chars ∧ c ∈ uppercase) ∧
  (∃ c, c ∈ chars ∧ c ∈ digits) ∧
  (∃ c, c ∈ chars ∧ c ∈ special) ∧
  Forall (λ c, c ∈ all_chars) chars.
Proof.
  intros Hn chars.
  destruct (generate_password_chars n tp Hn)
    as (c1 & c2 & c3 & c4 & rest & H1 & H2 & H3 & H4 & H5 & H6 & Hp).
  fold chars in Hp. split_and!.
  - rewrite Hp, length_app, H6. simpl. lia.
  - exists c1. rewrite Hp. split; [|done]. apply list_elem_of_here.
  - exists c2. rewrite Hp. split; [|done].
    apply list_elem_of_further, list_elem_of_here.
  - exists c3. rewrite Hp. split; [|done].
    do 2 apply list_elem_of_further. apply list_elem_of_here.
  - exists c4. rewrite Hp. split; [|done].
    do 3 apply list_elem_of_further. apply list_elem_of_here.
  - rewrite Hp. apply Forall_app. split; [|done].
    unfold all_chars. repeat apply Forall_cons_2; [..|constructor];
      rewrite !elem_of_app; auto.
Qed.

Lemma generate_password_shape_witness :
  let chars := String.list_ascii_of_string
                 (generate_password 12 tape_squares).1 in
  Z.of_nat (length chars) = 12 ∧
  (∃ c, c ∈ chars ∧ c ∈ lowercase) ∧
  (∃ c, c ∈ chars ∧ c ∈ uppercase) ∧
  (∃ c, c ∈ chars ∧ c ∈ digits) ∧
  (∃ c, c ∈ chars ∧ c ∈ special) ∧
  Forall (λ c, c ∈ all_chars) chars.
Proof. apply (generate_password_shape 12 tape_squares). lia. Defined.

(** X13: the result is the empty string exactly when the length is below 6,
    so the test of line 36 prints a password exactly for the accepted
    lengths; a refused length makes no random draw. *)
Theorem generate_password_empty_iff n tp :
  ((generate_password n tp).1 = "" ↔ n < 6) ∧
  (n < 6 → (generate_password n tp).2 = tp).
Proof.
  split; [split|].
  - intros Hempty. destruct (decide (n < 6)) as [|Hn]; [done|].
    destruct (generate_password_chars n tp ltac:(lia))
      as (c1 & c2 & c3 & c4 & rest & _ & _ & _ & _ & _ & _ & Hp).
    rewrite Hempty in Hp. apply Permutation_length in Hp. done.
  - intros Hn. unfold generate_password.
    by rewrite bool_decide_eq_true_2 by lia.
  - intros Hn. unfold generate_password.
    by rewrite bool_decide_eq_true_2 by lia.
Qed.

Example generate_password_5_refused :
  generate_password 5 tape_squares = ("", tape_squares).
Proof. reflexivity. Qed.

Example generate_password_12 :
  (generate_password 12 tape_squares).1 = "KRGxrI1a5?h4".
Proof. reflexivity. Qed.

(** * Properties of [check_password_strength] *)

Section PasswordStrengthFacts.
Context (unicode_decimal : N → bool) (str_lower : list N → list N).

Ltac check_cases :=
  unfold check_password_strength; cbv zeta;
  repeat match goal with
  | |- context [search ?c ?p] => destruct (search c p) eqn:?
  | |- context [bool_decide (?k ≤ Z.of_nat ?l)] =>
      destruct (bool_decide_reflect (k ≤ Z.of_nat l))
  | |- context [bool_decide (?x ∈ weak_list)] =>
      destruct (bool_decide_reflect (x ∈ weak_list))
  end;
  cbn -[weak_list].

(** X14: the score lies between 0 and 6, and the verdict is read off the
    score: strong at 6, moderate from 3 to 5, weak below 3. *)
Theorem score_and_verdict password :
  let r := check_password_strength unicode_decimal str_lower password in
  0 ≤ score r ≤ 6 ∧
  (strength r = " Strong" ↔ score r = 6) ∧
  (strength r = " Moderate" ↔ 3 ≤ score r ≤ 5) ∧
  (strength r = " Weak" ↔ score r ≤ 2).
Proof.
  check_cases; split_and!; try lia;
    split; first [done | lia | discriminate | (intros; exfalso; lia)].
Qed.

(** X15: a password is strong exactly when it has at least 12 characters, an
    uppercase and a lowercase ASCII letter, a decimal digit and one of
    the nine special characters, and its lower-case form is not in the
    list of common passwords; its only feedback line is then the one
    about the length. *)
Theorem strong_iff password :
  let r := check_password_strength unicode_decimal str_lower password in
  (strength r = " Strong" ↔
   12 ≤ Z.of_nat (length password) ∧
   search (in_range 65 90) password = true ∧
   search (in_range 97 122) password = true ∧
   search unicode_decimal password = true ∧
   search is_special password = true ∧
   str_lower password ∉ weak_list) ∧
  (strength r = " Strong" → feedback r = [" Good length"]).
Proof.
  check_cases; (split; [split|]);
    first [done | discriminate | lia
          | (intros (? & ? & ? & ? & ? & ?); first [done | lia])
          | (intros; exfalso; lia) | (intros; split_and!; done) ].
Qed.

(** X16: a password whose lower-case form is a listed common password gets
    score 0 and the verdict weak, whatever else it contains, and the
    feedback ends with the line saying so. *)
Theorem common_password_is_weak password :
  str_lower password ∈ weak_list →
  let r := check_password_strength unicode_decimal str_lower password in
  score r = 0 ∧ strength r = " Weak" ∧
  last (feedback r) = Some " Common password — too weak!".
Proof.
  intros Hweak. check_cases; try (exfalso; lia); try done.
  all: split_and!; first [done | by rewrite last_snoc].
Qed.

(** X17: whoever is not rated strong is told why: the feedback then has a
    line other than the praise of the length. *)
Theorem not_strong_gets_advice password :
  let r := check_password_strength unicode_decimal str_lower password in
  strength r ≠ " Strong" →
  ∃ line, line ∈ feedback r ∧ line ≠ " Good length".
Proof.
  check_cases; intros Hs; try (exfalso; lia); try done.
  all: first
    [ solve [eexists; split; [apply list_elem_of_here|discriminate]]
    | solve [eexists; split;
             [apply list_elem_of_further, list_elem_of_here|discriminate]] ].
Qed.

End PasswordStrengthFacts.

Lemma common_password_is_weak_witness :
  let r := check_password_strength ascii_decimal ascii_lower
             (codes "PassWord") in
  score r = 0 ∧ strength r = " Weak" ∧
  last (feedback r) = Some " Common password — too weak!".
Proof.
  apply (common_password_is_weak ascii_decimal ascii_lower (codes "PassWord")).
  vm_compute. apply list_elem_of_here.
Defined.

Lemma not_strong_gets_advice_witness :
  ∃ line, line ∈ feedback (check_password_strength ascii_decimal ascii_lower
                             (codes "Tr0ub4dor&3"))
          ∧ line ≠ " Good length".
Proof.
  apply (not_strong_gets_advice ascii_decimal ascii_lower
           (codes "Tr0ub4dor&3")).
  vm_compute. discriminate.
Defined.

(** * [generate_password] and [check_password_strength] together *)

Lemma alphabet_codes :
  Forall (λ c, in_range 97 122 (N_of_ascii c) = true) lowercase ∧
  Forall (λ c, in_range 65 90 (N_of_ascii c) = true) uppercase ∧
  Forall (λ c, in_range 48 57 (N_of_ascii c) = true) digits ∧
  Forall (λ c, is_special (N_of_ascii c) = true) special ∧
  Forall (λ c, (N_of_ascii c < 128)%N
               ∧ (is_special (N_of_ascii c) = true →
                  ascii_lower_code (N_of_ascii c) = N_of_ascii c))
         all_chars.
Proof. split_and!; apply (bool_decide_unpack _); vm_compute; exact I. Qed.

Lemma weak_list_no_special :
  Forall (Forall (λ c, is_special c = false)) weak_list.
Proof. apply (bool_decide_unpack _). vm_compute. exact I. Qed.

Lemma search_elem class (l : list ascii) c :
  c ∈ l → class (N_of_ascii c) = true →
  search class (N_of_ascii <$> l) = true.
Proof.
  intros Hc Hclass. apply existsb_exists. exists (N_of_ascii c).
  split; [|done]. apply list_elem_of_In. by apply list_elem_of_fmap_2.
Qed.

(** X18: a generated password is never rated weak: with 12 characters or
    more it scores 6 and is strong, with 8 to 11 it scores 5, with 6 or 7
    it scores 4, and is moderate in both cases. *)
Theorem generated_password_strength unicode_decimal str_lower n tp :
  (∀ c, in_range 48 57 c = true → unicode_decimal c = true) →
  (∀ l, Forall (λ c, (c < 128)%N) l → str_lower l = ascii_lower l) →
  6 ≤ n →
  let r := check_password_strength unicode_decimal str_lower
             (codes (generate_password n tp).1) in
  score r = (if bool_decide (12 ≤ n) then 6
             else if bool_decide (8 ≤ n) then 5 else 4) ∧
  strength r = (if bool_decide (12 ≤ n) then " Strong" else " Moderate").
Proof.
  intros Hdec Hlower Hn.
  destruct (generate_password_shape n tp Hn)
    as (Hlen & (c1 & Hc1 & Hl) & (c2 & Hc2 & Hu) & (c3 & Hc3 & Hd)
        & (c4 & Hc4 & Hs) & Hall).
  destruct alphabet_codes as (Al & Au & Ad & As & Aall).
  rewrite Forall_forall in Al, Au, Ad, As, Aall.
  unfold codes.
  set (chars := String.list_ascii_of_string (generate_password n tp).1) in *.
  assert (search (in_range 97 122) (N_of_ascii <$> chars) = true) as S1
    by eauto using search_elem.
  assert (search (in_range 65 90) (N_of_ascii <$> chars) = true) as S2
    by eauto using search_elem.
  assert (search unicode_decimal (N_of_ascii <$> chars) = true) as S3
    by eauto using search_elem.
  assert (search is_special (N_of_ascii <$> chars) = true) as S4
    by eauto using search_elem.
  assert (str_lower (N_of_ascii <$> chars) ∉ weak_list) as Hweak.
  { rewrite Hlower.
    - intros Hin. pose proof weak_list_no_special as Hno.
      rewrite Forall_forall in Hno. specialize (Hno _ Hin).
      rewrite Forall_forall in Hno.
      assert (N_of_ascii c4 ∈ ascii_lower (N_of_ascii <$> chars)) as Hc.
      { unfold ascii_lower. apply list_elem_of_fmap. exists (N_of_ascii c4).
        split; [|by apply list_elem_of_fmap_2].
        symmetry. apply Aall; [|by apply As].
        rewrite Forall_forall in Hall. by apply Hall. }
      specialize (Hno _ Hc). rewrite (As c4 Hs) in Hno. discriminate.
    - apply Forall_fmap, Forall_forall. intros c Hc. simpl.
      rewrite Forall_forall in Hall. by apply Aall, Hall. }
  unfold check_password_strength.
  rewrite S1, S2, S3, S4, length_fmap, Hlen.
  rewrite (bool_decide_eq_false_2 _ Hweak).
  repeat case_bool_decide; cbn [score strength]; split; first [done | lia].
Qed.

Lemma generated_password_strength_witness :
  let r := check_password_strength ascii_decimal ascii_lower
             (codes (generate_password 12 tape_squares).1) in
  score r = 6 ∧ strength r = " Strong".
Proof.
  apply (generated_password_strength ascii_decimal ascii_lower 12
           tape_squares).
  - intros c Hc. exact Hc.
  - intros l _. reflexivity.
  - lia.
Defined.
